(** * mmdet/apis/train.py: the adversarial attack loop [attack_detector]

    A shallow embedding of [attack_detector] (train.py, lines 238-303) and
    of the tensor arithmetic it performs, followed by the properties of
    the attack loop.

    Modelling conventions.
    - Tensor entries are IEEE-754 values with exact finite arithmetic:
      a finite value is a rational, and the special values +inf, -inf and
      NaN follow the IEEE rules (x/0, 0/0, inf-inf, 0*inf, NaN
      propagation).  Rounding, overflow and the sign of zero are
      abstracted away; a zero divisor is +0, which is what
      [torch.max(torch.abs(g))] yields.
    - A tensor of shape C x H x W is a list of channels, each a list of
      rows, each a list of pixels.  The loader is built with
      [imgs_per_gpu = 1], so the leading batch dimension has size 1 and is
      left out.
    - Python exceptions are the [Raise] outcomes of a state-and-exception
      monad; the state at the raise is kept, as in Python.
    - The detector [model] is an external collaborator: a function from
      the current image and the batch to the result dict, each loss term
      carrying its gradient with respect to the image (what [backward]
      accumulates into [imgs.grad]).
    - [pdb.set_trace()] (line 268) is a debugger breakpoint and is taken as
      resumed immediately. *)

From Stdlib Require Import ZArith QArith Qabs Lqa Lia List String Ascii Bool.
Import ListNotations.

Set Implicit Arguments.

(** ** Tensor entries *)

Module Num.

Inductive t : Type :=
| Fin (q : Q)
| PInf
| NInf
| NaN.

Definition zero : t := Fin 0.

Definition of_Z (z : Z) : t := Fin (inject_Z z).

Definition qzero (q : Q) : bool := Qeq_bool q 0.

(** Sign of a value: [Eq] for zero, [None] for NaN. *)
Definition sign (x : t) : option comparison :=
  match x with
  | Fin q => Some (q ?= 0)%Q
  | PInf => Some Gt
  | NInf => Some Lt
  | NaN => None
  end.

(** The infinity whose sign is the product of two signs; NaN when one
    factor is zero or NaN. *)
Definition inf_of (s1 s2 : option comparison) : t :=
  match s1, s2 with
  | Some Gt, Some Gt | Some Lt, Some Lt => PInf
  | Some Gt, Some Lt | Some Lt, Some Gt => NInf
  | _, _ => NaN
  end.

Definition opp (x : t) : t :=
  match x with
  | Fin q => Fin (- q)
  | PInf => NInf
  | NInf => PInf
  | NaN => NaN
  end.

Definition add (x y : t) : t :=
  match x, y with
  | NaN, _ | _, NaN => NaN
  | Fin a, Fin b => Fin (a + b)
  | PInf, NInf | NInf, PInf => NaN
  | PInf, _ | _, PInf => PInf
  | NInf, _ | _, NInf => NInf
  end.

Definition sub (x y : t) : t := add x (opp y).

Definition mul (x y : t) : t :=
  match x, y with
  | Fin a, Fin b => Fin (a * b)
  | _, _ => inf_of (sign x) (sign y)
  end.

Definition div (x y : t) : t :=
  match x, y with
  | NaN, _ | _, NaN => NaN
  | Fin a, Fin b =>
      if qzero b then inf_of (sign x) (Some Gt) else Fin (a / b)
  | Fin _, _ => Fin 0
  | _, Fin b => inf_of (sign x) (if qzero b then Some Gt else sign y)
  | _, _ => NaN
  end.

Definition abs (x : t) : t :=
  match x with
  | Fin q => Fin (Qabs q)
  | PInf | NInf => PInf
  | NaN => NaN
  end.

(** [torch.max] propagates NaN. *)
Definition max (x y : t) : t :=
  match x, y with
  | NaN, _ | _, NaN => NaN
  | PInf, _ | _, PInf => PInf
  | NInf, z | z, NInf => z
  | Fin a, Fin b => if Qle_bool a b then y else x
  end.

(** IEEE [<=]: false as soon as one side is NaN. *)
Definition leb (x y : t) : bool :=
  match x, y with
  | NaN, _ | _, NaN => false
  | NInf, _ | _, PInf => true
  | Fin a, Fin b => Qle_bool a b
  | _, _ => false
  end.

Definition is_nan (x : t) : bool :=
  match x with NaN => true | _ => false end.

Definition is_finite (x : t) : bool :=
  match x with Fin _ => true | _ => false end.

(** Equality of values up to the representation of the rational. *)
Definition equiv (x y : t) : Prop :=
  match x, y with
  | Fin a, Fin b => a == b
  | PInf, PInf | NInf, NInf | NaN, NaN => True
  | _, _ => False
  end.

End Num.

(** ** Tensors of shape C x H x W *)

Definition image : Type := list (list (list Num.t)).

Fixpoint zip_with {A B C : Type} (f : A -> B -> C)
    (l1 : list A) (l2 : list B) : list C :=
  match l1, l2 with
  | a :: l1', b :: l2' => f a b :: zip_with f l1' l2'
  | _, _ => []
  end.

(** Elementwise operations; the two operands of a binary operation have
    the same shape (a gradient has the shape of its tensor). *)
Definition tmap (f : Num.t -> Num.t) (x : image) : image :=
  map (map (map f)) x.

Definition tzip (f : Num.t -> Num.t -> Num.t) (x y : image) : image :=
  zip_with (zip_with (zip_with f)) x y.

Definition tadd : image -> image -> image := tzip Num.add.

Definition tflat (x : image) : list Num.t := List.concat (List.concat x).

(** [torch.max(x)] over all entries; [None] for an empty tensor, on which
    torch raises. *)
Definition tmax (x : image) : option Num.t :=
  match tflat x with
  | [] => None
  | a :: l => Some (fold_left Num.max l a)
  end.

Definition pixel (x : image) (c h w : nat) : option Num.t :=
  match nth_error x c with
  | Some ch =>
      match nth_error ch h with
      | Some row => nth_error row w
      | None => None
      end
  | None => None
  end.

(** Distance in max-norm between two tensors of the same shape. *)
Definition linf_dist (x y : image) : option Num.t :=
  tmax (tmap Num.abs (tzip Num.sub y x)).

(** ** Data consumed by the loop *)

(** A loss tensor (0-dim) of the result dict: its value and its gradient
    with respect to the image, [None] when the image is not on its graph
    ([backward] then leaves [imgs.grad] untouched). *)
Record term : Type := mkTerm {
  value : Num.t;
  grad : option image
}.

(** A value of the result dict: a 0-dim tensor or a list of them. *)
Inductive entry : Type :=
| Tensor (t : term)
| TList (ts : list term).

(** The result dict, in insertion order. *)
Definition result : Type := list (string * entry).

(** One element of the loader: [data['img']], the fields of
    [data['img_meta']] that the loop reads, and the ground truth. *)
Record batch : Type := mkBatch {
  img : image;
  filename : string;
  mean : list Num.t;
  std : list Num.t;
  gt_bboxes : list (list Num.t);
  gt_labels : list Z
}.

Record arguments : Type := mkArgs {
  clear_output : bool;
  save_path : string;
  max_attack_batches : Z;
  num_attack_iter : Z;
  epsilon : Num.t
}.

(** [cfg.data.workers_per_gpu], [cfg.data.imgs_per_gpu], [cfg.gpus]. *)
Record config : Type := mkConfig {
  workers_per_gpu : Z;
  imgs_per_gpu : Z;
  gpus : Z
}.

Inductive kind : Type := File | Dir.

Inductive exn : Type :=
| KeyError (key : string)
| IndexError
| TypeError
| RuntimeError
| ZeroDivisionError
| IsADirectoryError (name : string).

(** ** State and exceptions *)

(** The caller's [cfg] object, the directory at [args.save_path], the
    console, the files handed to [visualize_img], the two progress bars,
    and the locals of [attack_detector] that its loops update. *)
Record state : Type := mkState {
  cfg : config;
  save_dir : list (string * kind);
  rendered : list (string * image);
  stdout : list (string * Num.t);
  pbar_outer : nat;
  pbar_inner : nat;
  imgs : image;
  acc_list : list entry;
  acc_before_attack : Num.t;
  acc_under_attack : Num.t
}.

Definition set_cfg (c : config) (s : state) : state :=
  mkState c (save_dir s) (rendered s) (stdout s) (pbar_outer s)
    (pbar_inner s) (imgs s) (acc_list s)
    (acc_before_attack s) (acc_under_attack s).

Definition set_save_dir (d : list (string * kind)) (s : state) : state :=
  mkState (cfg s) d (rendered s) (stdout s) (pbar_outer s)
    (pbar_inner s) (imgs s) (acc_list s)
    (acc_before_attack s) (acc_under_attack s).

Definition set_rendered (r : list (string * image)) (s : state) : state :=
  mkState (cfg s) (save_dir s) r (stdout s) (pbar_outer s)
    (pbar_inner s) (imgs s) (acc_list s)
    (acc_before_attack s) (acc_under_attack s).

Definition set_stdout (o : list (string * Num.t)) (s : state) : state :=
  mkState (cfg s) (save_dir s) (rendered s) o (pbar_outer s)
    (pbar_inner s) (imgs s) (acc_list s)
    (acc_before_attack s) (acc_under_attack s).

Definition set_pbar_outer (n : nat) (s : state) : state :=
  mkState (cfg s) (save_dir s) (rendered s) (stdout s) n
    (pbar_inner s) (imgs s) (acc_list s)
    (acc_before_attack s) (acc_under_attack s).

Definition set_pbar_inner (n : nat) (s : state) : state :=
  mkState (cfg s) (save_dir s) (rendered s) (stdout s) (pbar_outer s)
    n (imgs s) (acc_list s)
    (acc_before_attack s) (acc_under_attack s).

Definition set_imgs (x : image) (s : state) : state :=
  mkState (cfg s) (save_dir s) (rendered s) (stdout s) (pbar_outer s)
    (pbar_inner s) x (acc_list s)
    (acc_before_attack s) (acc_under_attack s).

Definition set_acc_list (l : list entry) (s : state) : state :=
  mkState (cfg s) (save_dir s) (rendered s) (stdout s) (pbar_outer s)
    (pbar_inner s) (imgs s) l
    (acc_before_attack s) (acc_under_attack s).

Definition set_acc_before_attack (a : Num.t) (s : state) : state :=
  mkState (cfg s) (save_dir s) (rendered s) (stdout s) (pbar_outer s)
    (pbar_inner s) (imgs s) (acc_list s)
    a (acc_under_attack s).

Definition set_acc_under_attack (a : Num.t) (s : state) : state :=
  mkState (cfg s) (save_dir s) (rendered s) (stdout s) (pbar_outer s)
    (pbar_inner s) (imgs s) (acc_list s)
    (acc_before_attack s) a.

Inductive outcome (A : Type) : Type :=
| Ok (a : A)
| Raise (e : exn).

Arguments Ok {A} a.
Arguments Raise {A} e.

Definition M (A : Type) : Type := state -> outcome A * state.

Definition ret {A : Type} (a : A) : M A := fun s => (Ok a, s).

Definition raise {A : Type} (e : exn) : M A := fun s => (Raise e, s).

Definition bind {A B : Type} (m : M A) (k : A -> M B) : M B :=
  fun s =>
    match m s with
    | (Ok a, s') => k a s'
    | (Raise e, s') => (Raise e, s')
    end.

Definition gets {A : Type} (f : state -> A) : M A := fun s => (Ok (f s), s).

Definition modify (f : state -> state) : M unit := fun s => (Ok tt, f s).

(** A Python expression that may raise and does not touch the state. *)
Definition lift {A : Type} (r : exn + A) : M A :=
  match r with
  | inl e => raise e
  | inr a => ret a
  end.

Declare Scope py_scope.
Delimit Scope py_scope with py.
Notation "x <- m ;; k" := (bind m (fun x => k))
  (at level 61, m at next level, right associativity) : py_scope.
Notation "m ;; k" := (bind m (fun _ => k))
  (at level 61, right associativity) : py_scope.
Open Scope py_scope.

(** ** Python and numpy helpers *)

(** [d[key]] on a dict. *)
Fixpoint getitem (d : result) (key : string) : exn + entry :=
  match d with
  | [] => inl (KeyError key)
  | (k, v) :: d' => if String.eqb k key then inr v else getitem d' key
  end.

(** [l[k]] on a list or along the first axis of an array. *)
Definition index {A : Type} (l : list A) (k : nat) : exn + A :=
  match nth_error l k with
  | Some a => inr a
  | None => inl IndexError
  end.

(** [l[-1]]. *)
Definition index_last {A : Type} (l : list A) : exn + A :=
  index l (List.length l - 1).

(** [l.remove(key)] where [key] is known to occur in [l]. *)
Fixpoint list_remove (key : string) (l : list string) : list string :=
  match l with
  | [] => []
  | k :: l' => if String.eqb k key then l' else k :: list_remove key l'
  end.

(** [l[k] = a] for [k] in range. *)
Fixpoint setitem {A : Type} (l : list A) (k : nat) (a : A) : list A :=
  match l, k with
  | [], _ => []
  | _ :: l', O => a :: l'
  | b :: l', S k' => b :: setitem l' k' a
  end.

Definition has_slash (s : string) : bool :=
  existsb (Ascii.eqb "/"%char) (list_ascii_of_string s).

(** The second component of [os.path.split(path)]: what follows the last
    slash. *)
Fixpoint basename (path : string) : string :=
  match path with
  | EmptyString => EmptyString
  | String c r =>
      if has_slash r then basename r
      else if Ascii.eqb c "/"%char then r else path
  end.

(** [x[[2, 1, 0]]]: the listed channels, in that order. *)
Fixpoint take (x : image) (idx : list nat) : exn + image :=
  match idx with
  | [] => inr []
  | k :: idx' =>
      match index x k, take x idx' with
      | inr ch, inr r => inr (ch :: r)
      | inl e, _ | _, inl e => inl e
      end
  end.

(** [x.transpose(1, 2, 0)]: from C x H x W to H x W x C. *)
Definition transpose_1_2_0 (x : image) : image :=
  match x with
  | [] => []
  | c0 :: cs =>
      fold_left
        (fun acc ch => zip_with (zip_with (fun px p => px ++ [p])) acc ch)
        cs (map (map (fun p => [p])) c0)
  end.

(** [pixel * std[k] + mean[k]] (lines 287-288). *)
Definition denorm (s m p : Num.t) : Num.t := Num.add (Num.mul p s) m.

(** [x[k] = x[k] * imgs_std[k] + imgs_mean[k]]. *)
Definition denorm_channel (stds means : list Num.t) (x : image) (k : nat)
    : exn + image :=
  match index x k, index stds k, index means k with
  | inr ch, inr s, inr m => inr (setitem x k (map (map (denorm s m)) ch))
  | inl e, _, _ | _, inl e, _ | _, _, inl e => inl e
  end.

(** The loop of lines 286-288 over the channels [ks], on the attacked image
    and on the raw one. *)
Fixpoint denorm_loop (stds means : list Num.t) (ks : list nat)
    (x raw : image) : exn + image * image :=
  match ks with
  | [] => inr (x, raw)
  | k :: ks' =>
      match denorm_channel stds means x k with
      | inl e => inl e
      | inr x' =>
          match denorm_channel stds means raw k with
          | inl e => inl e
          | inr raw' => denorm_loop stds means ks' x' raw'
          end
      end
  end.

(** [t.backward(retain_graph=True)]: what one backward call does to
    [imgs.grad], which is [None] on the freshly detached image. *)
Definition backward (g : option image) (t : term) : option image :=
  match grad t, g with
  | None, _ => g
  | Some d, None => Some d
  | Some d, Some g0 => Some (tadd g0 d)
  end.

(** Lines 272-277: the backward passes over the entries at [keys], from
    [imgs.grad = g]. *)
Fixpoint backward_keys (res : result) (keys : list string) (g : option image)
    : exn + option image :=
  match keys with
  | [] => inr g
  | key :: keys' =>
      match getitem res key with
      | inl e => inl e
      | inr (TList ts) => backward_keys res keys' (fold_left backward ts g)
      | inr (Tensor t) => backward_keys res keys' (backward g t)
      end
  end.

(** [result[keys[0]][0]] (line 279); indexing a 0-dim tensor raises. *)
Definition first_term (res : result) (keys : list string) : exn + term :=
  match index keys 0 with
  | inl e => inl e
  | inr k =>
      match getitem res k with
      | inl e => inl e
      | inr (TList ts) => index ts 0
      | inr (Tensor _) => inl IndexError
      end
  end.

(** Line 278, on the image [x] with [imgs.grad = g]:
    [x + epsilon / num_attack_iter * g / torch.max(torch.abs(g))].
    A float times [None] is a TypeError, [torch.max] of an empty tensor a
    RuntimeError.  A zero maximum raises nothing. *)
Definition perturb (eps : Num.t) (n : Z) (x : image) (g : option image)
    : exn + image :=
  match g with
  | None => inl TypeError
  | Some g =>
      let scaled := tmap (Num.mul (Num.div eps (Num.of_Z n))) g in
      match tmax (tmap Num.abs g) with
      | None => inl RuntimeError
      | Some m => inr (tadd x (tmap (fun v => Num.div v m) scaled))
      end
  end.

(** [total += e] for an element [e] of the accuracy trace. *)
Definition plus_entry (total : Num.t) (e : entry) : exn + Num.t :=
  match e with
  | Tensor t => inr (Num.add total (value t))
  | TList _ => inl TypeError
  end.

(** [total /= max_batch] (lines 299-300).  With [max_batch = 0] no batch
    was processed, the total is still the int 0 and the division raises. *)
Definition mean_of (total : Num.t) (max_batch : Z) : exn + Num.t :=
  if (max_batch =? 0)%Z then inl ZeroDivisionError
  else inr (Num.div total (Num.of_Z max_batch)).

(** ** The attack loop *)

Section AttackDetector.

Variable Dataset : Type.

(** [build_dataloader(dataset, imgs_per_gpu, workers_per_gpu, num_gpus,
    dist=False)]: the batches, in the order the loader yields them; its
    [__len__] is their number. *)
Variable build_dataloader : Dataset -> Z -> Z -> Z -> list batch.

(** [model(imgs, data['img_meta'], return_loss=True, gt_bboxes=...,
    gt_labels=...)]. *)
Variable model : image -> batch -> result.

Variable args : arguments.

(** The body of the inner loop, lines 264-281.  The detached image has
    no gradient yet; the backward call of line 279 adds to the gradient
    of the image of the previous line, which nothing reads any more, and
    [model.zero_grad()] resets parameter gradients, which [model], a
    function, does not have. *)
Definition attack_step (data : batch) : M unit :=
  x <- gets imgs ;;
  let res := model x data in
  let keys := map fst res in
  acc <- lift (getitem res "acc") ;;
  modify (fun s => set_acc_list (acc_list s ++ [acc]) s) ;;
  let keys := list_remove "acc" keys in
  g <- lift (backward_keys res keys None) ;;
  x' <- lift (perturb (epsilon args) (num_attack_iter args) x g) ;;
  modify (set_imgs x') ;;
  _ <- lift (first_term res keys) ;;
  modify (fun s => set_pbar_inner (S (pbar_inner s)) s).

(** [for _ in range(k)]. *)
Fixpoint attack_iters (k : nat) (data : batch) : M unit :=
  match k with
  | O => ret tt
  | S k' => attack_step data ;; attack_iters k' data
  end.

(** [visualize_img(infer_model, x, path)]. *)
Definition visualize_img (x : image) (path : string) : M unit :=
  modify (fun s => set_rendered (rendered s ++ [(path, x)]) s).

(** Lines 256-262: the locals at the start of a batch. *)
Definition start_batch (data : batch) (s : state) : state :=
  set_acc_list [] (set_pbar_inner 0 (set_imgs (img data) s)).

(** The body of the outer loop, lines 256-296. *)
Definition attack_batch (data : batch) : M unit :=
  modify (start_batch data) ;;
  attack_iters (Z.to_nat (num_attack_iter args)) data ;;
  l <- gets acc_list ;;
  first <- lift (index l 0) ;;
  before <- gets acc_before_attack ;;
  before' <- lift (plus_entry before first) ;;
  modify (set_acc_before_attack before') ;;
  last <- lift (index_last l) ;;
  under <- gets acc_under_attack ;;
  under' <- lift (plus_entry under last) ;;
  modify (set_acc_under_attack under') ;;
  x <- gets imgs ;;
  xr <- lift (denorm_loop (std data) (mean data) [0; 1; 2]%nat x (img data)) ;;
  x <- lift (take (fst xr) [2; 1; 0]%nat) ;;
  raw <- lift (take (snd xr) [2; 1; 0]%nat) ;;
  let x := transpose_1_2_0 x in
  let raw := transpose_1_2_0 raw in
  let name := basename (filename data) in
  visualize_img raw (save_path args ++ name) ;;
  visualize_img x (save_path args ++ "attack_" ++ name) ;;
  modify (fun s => set_pbar_outer (S (pbar_outer s)) s).

(** [for i, data in enumerate(attack_loader)], lines 253-296.  The loader
    is the list of the batches it yields, so that fetching a batch cannot
    fail here.  As in the source, the batch number [max_batch] is taken
    from the loader before the test that leaves the loop, and is not
    processed. *)
Fixpoint attack_batches (i max_batch : Z) (loader : list batch) : M unit :=
  match loader with
  | [] => ret tt
  | data :: loader' =>
      if (max_batch <=? i)%Z then ret tt
      else attack_batch data ;; attack_batches (i + 1) max_batch loader'
  end.

(** [os.remove(os.path.join(args.save_path, f))]. *)
Definition os_remove (f : string) : M unit :=
  d <- gets save_dir ;;
  match find (fun e => String.eqb (fst e) f) d with
  | Some (_, Dir) => raise (IsADirectoryError f)
  | _ =>
      modify (set_save_dir (filter (fun e => negb (String.eqb (fst e) f)) d))
  end.

Fixpoint remove_all (file_list : list string) : M unit :=
  match file_list with
  | [] => ret tt
  | f :: file_list' => os_remove f ;; remove_all file_list'
  end.

Definition print (label : string) (v : Num.t) : M unit :=
  modify (fun s => set_stdout (stdout s ++ [(label, v)]) s).

(** Lines 239-247: everything before the loop; returns [attack_loader].
    [load_model] and the [MMDataParallel] wrapper change nothing here. *)
Definition setup (dataset : Dataset) : M (list batch) :=
  modify (fun s =>
    set_cfg (mkConfig 0 (imgs_per_gpu (cfg s)) (gpus (cfg s))) s) ;;
  modify (fun s =>
    set_cfg (mkConfig (workers_per_gpu (cfg s)) 1 (gpus (cfg s))) s) ;;
  c <- gets cfg ;;
  let attack_loader :=
    build_dataloader dataset (imgs_per_gpu c) (workers_per_gpu c) (gpus c) in
  (if clear_output args then
     file_list <- gets (fun s => map fst (save_dir s)) ;;
     remove_all file_list
   else ret tt) ;;
  ret attack_loader.

(** [min(attack_loader.__len__(), args.max_attack_batches)]. *)
Definition max_batch_of (attack_loader : list batch) : Z :=
  Z.min (Z.of_nat (List.length attack_loader)) (max_attack_batches args).

(** Lines 249-252: the progress bars and the running totals before the
    loop. *)
Definition start_loop (s : state) : state :=
  set_acc_under_attack Num.zero
    (set_acc_before_attack Num.zero
       (set_pbar_inner 0 (set_pbar_outer 0 s))).

(** Lines 297-303: the means and the three printed lines. *)
Definition report (max_batch : Z) : M unit :=
  before <- gets acc_before_attack ;;
  before <- lift (mean_of before max_batch) ;;
  modify (set_acc_before_attack before) ;;
  under <- gets acc_under_attack ;;
  under <- lift (mean_of under max_batch) ;;
  modify (set_acc_under_attack under) ;;
  print "Accuracy before attack" before ;;
  print "Accuracy under attack" under ;;
  print "Accuracy decrease" (Num.sub before under).

(** Lines 248-303: the loop over the batches and the report. *)
Definition evaluate (attack_loader : list batch) : M unit :=
  let max_batch := max_batch_of attack_loader in
  modify start_loop ;;
  attack_batches 0 max_batch attack_loader ;;
  report max_batch.

Definition attack_detector (dataset : Dataset) : M unit :=
  attack_loader <- setup dataset ;;
  evaluate attack_loader.

End AttackDetector.

(** ** Notions used by the statements *)

(** Modelled from the spec: the data source's normalization of a pixel,
    [norm(x) = (x - mean) / std], with the arguments in the order of
    [denorm].  The transform itself (the loader's pipeline) is not part of
    train.py. *)
Definition normalize (s m x : Num.t) : Num.t := Num.div (Num.sub x m) s.

(** Modelled from the spec: the normalization of an image, channel [k] with
    [std[k]] and [mean[k]]. *)
Definition normalize_image (stds means : list Num.t) (x : image) : image :=
  zip_with (fun ch sm => map (map (normalize (fst sm) (snd sm))) ch)
    x (combine stds means).

(** Two tensors of the same shape whose entries are pairwise related. *)
Definition pointwise (R : Num.t -> Num.t -> Prop) (x y : image) : Prop :=
  Forall2 (Forall2 (Forall2 R)) x y.

Fixpoint forallb2 {A B : Type} (f : A -> B -> bool)
    (l1 : list A) (l2 : list B) : bool :=
  match l1, l2 with
  | [], [] => true
  | a :: l1', b :: l2' => f a b && forallb2 f l1' l2'
  | _, _ => false
  end.

Definition same_shape (x y : image) : bool :=
  forallb2 (forallb2 (forallb2 (fun _ _ => true))) x y.

Definition all_finite (x : image) : bool := forallb Num.is_finite (tflat x).

(** [b] is [x] moved by at most [d]. *)
Definition close (d : Q) (a b : Num.t) : Prop :=
  exists qa qb, a = Num.Fin qa /\ b = Num.Fin qb /\ Qabs (qb - qa) <= d.

(** Every entry of the tensor satisfies [P]. *)
Definition all_entries (P : Num.t -> Prop) (x : image) : Prop :=
  Forall (Forall (Forall P)) x.

(** A standard deviation one can divide by: finite and not zero. *)
Definition usable_std (s : Num.t) : bool :=
  match s with
  | Num.Fin q => negb (Num.qzero q)
  | _ => false
  end.

(** A finite value of absolute value at most [m]. *)
Definition bounded (m : Q) (v : Num.t) : Prop :=
  exists q, v = Num.Fin q /\ Qabs q <= m.

(** The perturbation from [x] to [x'] has max-norm at most [eps]. *)
Definition within_budget (eps : Num.t) (x x' : image) : Prop :=
  exists d, linf_dist x x' = Some d /\ Num.leb d eps = true.

(** The gradient [g] has the shape of the image [x] and a finite, non-zero
    maximum absolute value. *)
Definition regular_gradient (x : image) (g : option image) : bool :=
  match g with
  | Some g =>
      same_shape x g &&
      match tmax (tmap Num.abs g) with
      | Some (Num.Fin m) => negb (Num.qzero m)
      | _ => false
      end
  | None => false
  end.

(** The gradient that the backward passes of lines 272-277 leave on the
    image [x] of the batch [data]. *)
Definition image_gradient (model : image -> batch -> result)
    (x : image) (data : batch) : exn + option image :=
  let res := model x data in
  backward_keys res (list_remove "acc" (map fst res)) None.

(** The next [k] iterations from [s] complete, each with a regular
    gradient. *)
Fixpoint regular_run (model : image -> batch -> result) (args : arguments)
    (k : nat) (data : batch) (s : state) : bool :=
  match k with
  | O => true
  | S k' =>
      match image_gradient model (imgs s) data with
      | inr g => regular_gradient (imgs s) g
      | inl _ => false
      end &&
      match attack_step model args data s with
      | (Ok _, s') => regular_run model args k' data s'
      | (Raise _, _) => false
      end
  end.

(** The batches of a list are processed one after the other from [s] to
    [s'], the first and last values of their accuracy traces being
    [firsts] and [lasts]. *)
Inductive processed (model : image -> batch -> result) (args : arguments)
    : list batch -> state -> state -> list Num.t -> list Num.t -> Prop :=
| processed_nil s : processed model args [] s s [] []
| processed_cons data l s s1 s2 a b firsts lasts :
    attack_batch model args data s = (Ok tt, s1) ->
    index (acc_list s1) 0 = inr (Tensor a) ->
    index_last (acc_list s1) = inr (Tensor b) ->
    processed model args l s1 s2 firsts lasts ->
    processed model args (data :: l) s s2 (value a :: firsts) (value b :: lasts).

(** [0 + v1 + v2 + ...], as the running totals are built. *)
Definition total (l : list Num.t) : Num.t := fold_left Num.add l Num.zero.

(** The computation [m] leaves the component [f] of the state as it is,
    whether it completes or raises. *)
Definition preserves {A B : Type} (f : state -> A) (m : M B) : Prop :=
  forall s, f (snd (m s)) = f s.

(** ** Sample inputs *)

Module Sample.

Open Scope string_scope.

Definition fin (z : Z) : Num.t := Num.Fin (inject_Z z).

(** A 3 x 1 x 2 image. *)
Definition img0 : image :=
  [ [[fin 1; fin 2]]; [[fin 3; fin 4]]; [[fin 5; fin 6]] ].

Definition g0 : image :=
  [ [[fin 1; fin (-2)]]; [[fin 0; fin 4]]; [[Num.Fin (1 # 2); fin 0]] ].

Definition data0 : batch :=
  mkBatch img0 "data/coco/a.jpg" [fin 10; fin 20; fin 30]
    [fin 2; fin 3; fin 4] [] [].

Definition acc0 : term := mkTerm (Num.Fin (9 # 10)) None.

(** A two-stage detector whose RPN loss has the constant gradient [g0]. *)
Definition detector (x : image) (data : batch) : result :=
  [("loss_rpn_cls", TList [mkTerm (fin 1) (Some g0)]);
   ("loss_cls", Tensor (mkTerm (fin 1) None));
   ("acc", Tensor acc0)].

(** A detector whose loss does not move with the image: zero gradient. *)
Definition flat_detector (x : image) (data : batch) : result :=
  [("loss_rpn_cls", TList [mkTerm (fin 1) (Some (tmap (fun _ => fin 0) x))]);
   ("acc", Tensor acc0)].

(** A single-stage detector: no accuracy in its result. *)
Definition single_stage (x : image) (data : batch) : result :=
  [("loss_cls", TList [mkTerm (fin 1) (Some g0)]);
   ("loss_bbox", TList [mkTerm (fin 1) None])].

Definition loader_of (d : list batch) (imgs_per_gpu workers gpus : Z)
    : list batch := d.

Definition args0 : arguments := mkArgs true "out/" 5 2 (fin 1).

Definition args1 : arguments := mkArgs false "out/" 2 1 (fin 0).

Definition state0 : state :=
  mkState (mkConfig 4 8 1) [("old.jpg", File); ("attack_old.jpg", File)]
    [] [] 0 0 [] [] Num.zero Num.zero.

(** The gradient of [flat_detector] on [img0]. *)
Definition zeros : image := tmap (fun _ => fin 0) img0.

(** The state in which the inner loop starts on [data0]. *)
Definition batch_start : state := start_batch data0 (start_loop state0).

(** The state after the lines before the loop, run from [state0]. *)
Definition after_setup : state :=
  set_save_dir [] (set_cfg (mkConfig 0 1 1) state0).

(** A detector whose accuracy moves with the image: it is right as long
    as the first entry of the image is at most 9/8. *)
Definition sensitive (x : image) (data : batch) : result :=
  [("loss_rpn_cls", TList [mkTerm (fin 1) (Some g0)]);
   ("acc",
    Tensor
      (mkTerm
         (match pixel x 0 0 0 with
          | Some v => if Num.leb v (Num.Fin (9 # 8)) then fin 1 else fin 0
          | None => fin 0
          end)
         None))].

(** A second batch, on which [sensitive] is wrong from the start. *)
Definition data1 : batch :=
  mkBatch [ [[fin 2; fin 2]]; [[fin 3; fin 4]]; [[fin 5; fin 6]] ]
    "data/coco/b.jpg" [fin 10; fin 20; fin 30] [fin 2; fin 3; fin 4] [] [].

(** A cap of one batch; a cap of two. *)
Definition args_cap1 : arguments := mkArgs false "out/" 1 2 (fin 1).

Definition args_cap2 : arguments := mkArgs false "out/" 2 2 (fin 1).

End Sample.

(** ** Notions used by the further properties of the attack loop *)

(** The two paths a batch is rendered to: the prefix [save_path] and the
    last component of the file name are concatenated as they are. *)
Definition rendered_paths (args : arguments) (data : batch) : list string :=
  [(save_path args ++ basename (filename data))%string;
   (save_path args ++ "attack_" ++ basename (filename data))%string].

(** The loss terms of a result dict, in dict order: those of every entry
    but ['acc']. *)
Definition loss_terms (res : result) : list term :=
  flat_map
    (fun kv =>
       if String.eqb (fst kv) "acc" then []
       else match snd kv with
            | Tensor t => [t]
            | TList ts => ts
            end)
    res.

(** The entries of a dict without the first one at [key]. *)
Fixpoint remove_entry (key : string) (d : result) : result :=
  match d with
  | [] => []
  | kv :: d' =>
      if String.eqb (fst kv) key then d' else kv :: remove_entry key d'
  end.

(** The values at row [h], column [w] of an image in H x W x C layout. *)
Definition channels_at (x : image) (h w : nat) : option (list Num.t) :=
  match nth_error x h with
  | Some row => nth_error row w
  | None => None
  end.

(** The computation [m] raises in no state. *)
Definition never_raises {A : Type} (m : M A) : Prop :=
  forall s e s', m s <> (Raise e, s').

(** ** [parse_losses] (lines 25-42) *)

(** A value of the dict of losses: a tensor, given by its entries, a list
    of tensors, or any other object. *)
Inductive loss_value : Type :=
| LTensor (t : list Num.t)
| LList (ts : list (list Num.t))
| LOther.

(** What a log variable holds before [.item()]: a Python int (the [0] that
    [sum] starts from) or a 0-dim tensor. *)
Inductive number : Type :=
| PyInt (z : Z)
| Scalar (v : Num.t).

(** The two exceptions of [parse_losses]: the TypeError of line 33, and
    the AttributeError of [.item()] on an int (line 40). *)
Inductive parse_exn : Type :=
| NotATensor (loss_name : string)
| NoItem.

(** [t.mean()]: NaN on an empty tensor. *)
Definition tensor_mean (t : list Num.t) : Num.t :=
  Num.div (fold_left Num.add t Num.zero)
    (Num.of_Z (Z.of_nat (List.length t))).

(** [a + b] on ints and 0-dim tensors. *)
Definition py_add (a b : number) : number :=
  match a, b with
  | PyInt x, PyInt y => PyInt (x + y)
  | PyInt x, Scalar v => Scalar (Num.add (Num.of_Z x) v)
  | Scalar v, PyInt y => Scalar (Num.add v (Num.of_Z y))
  | Scalar u, Scalar v => Scalar (Num.add u v)
  end.

(** [sum(l)]. *)
Definition py_sum (l : list number) : number := fold_left py_add l (PyInt 0).

(** [sub in s] on strings. *)
Fixpoint contains (sub s : string) : bool :=
  if String.prefix sub s then true
  else match s with
       | EmptyString => false
       | String _ r => contains sub r
       end.

(** [d[key] = v] on an ordered dict: in place when the key is there, at
    the end otherwise. *)
Fixpoint dict_set {V : Type} (d : list (string * V)) (key : string) (v : V)
    : list (string * V) :=
  match d with
  | [] => [(key, v)]
  | (k, v0) :: d' =>
      if String.eqb k key then (key, v) :: d'
      else (k, v0) :: dict_set d' key v
  end.

(** Lines 27-34: the loop over [losses.items()], from the log variables
    gathered so far. *)
Fixpoint collect (losses : list (string * loss_value))
    (log_vars : list (string * number))
    : parse_exn + list (string * number) :=
  match losses with
  | [] => inr log_vars
  | (loss_name, LTensor t) :: rest =>
      collect rest (dict_set log_vars loss_name (Scalar (tensor_mean t)))
  | (loss_name, LList ts) :: rest =>
      collect rest
        (dict_set log_vars loss_name
           (py_sum (map (fun t => Scalar (tensor_mean t)) ts)))
  | (loss_name, LOther) :: _ => inl (NotATensor loss_name)
  end.

(** Lines 39-40: [.item()] on every log variable, in order. *)
Fixpoint items (log_vars : list (string * number))
    : parse_exn + list (string * Num.t) :=
  match log_vars with
  | [] => inr []
  | (_, PyInt _) :: _ => inl NoItem
  | (name, Scalar v) :: rest =>
      match items rest with
      | inl e => inl e
      | inr out => inr ((name, v) :: out)
      end
  end.

Definition parse_losses (losses : list (string * loss_value))
    : parse_exn + number * list (string * Num.t) :=
  match collect losses [] with
  | inl e => inl e
  | inr log_vars =>
      let loss :=
        py_sum
          (map snd (filter (fun kv => contains "loss" (fst kv)) log_vars)) in
      let log_vars := dict_set log_vars "loss" loss in
      match items log_vars with
      | inl e => inl e
      | inr out => inr (loss, out)
      end
  end.

(** The logged value of a tensor or of a non-empty list of tensors. *)
Definition logged (v : loss_value) : Num.t :=
  match v with
  | LTensor t => tensor_mean t
  | LList ts => fold_left Num.add (map tensor_mean ts) Num.zero
  | LOther => Num.zero
  end.

(** A tensor or a non-empty list of tensors. *)
Definition has_mean (v : loss_value) : bool :=
  match v with
  | LTensor _ | LList (_ :: _) => true
  | _ => false
  end.

Definition is_other (v : loss_value) : bool :=
  match v with LOther => true | _ => false end.

(** ** [build_optimizer] (lines 71-148) *)

(** A parameter tensor: whether it requires a gradient, and which tensor it
    is. *)
Record parameter : Type := mkParameter {
  requires_grad : bool;
  tensor_id : nat
}.

(** The dict [paramwise_options]: each of its three accepted fields is
    there or not. *)
Record paramwise : Type := mkParamwise {
  bias_lr_mult : option Num.t;
  bias_decay_mult : option Num.t;
  norm_decay_mult : option Num.t
}.

(** The dict [optimizer_cfg]: its two positional fields [type] and [lr],
    and the optional [weight_decay], [paramwise_options] and further
    arguments of the optimizer. *)
Record optimizer_config : Type := mkOptimizerConfig {
  type : string;
  lr : Num.t;
  weight_decay : option Num.t;
  paramwise_options : option paramwise;
  other_options : list (string * Num.t)
}.

(** A parameter group: [{'params': [...]}] with, when set, ['lr'] and
    ['weight_decay']. *)
Record param_group : Type := mkGroup {
  params : list parameter;
  group_lr : option Num.t;
  group_weight_decay : option Num.t
}.

(** The first argument of the optimizer class: [model.parameters()] or the
    list of parameter groups. *)
Inductive params_argument : Type :=
| AllParameters (ps : list parameter)
| Groups (gs : list param_group).

(** The call that builds the optimizer: the class of [torch.optim], its
    first argument, and the keyword arguments left in [optimizer_cfg]. *)
Record optimizer : Type := mkOptimizer {
  optimizer_cls : string;
  params_arg : params_argument;
  default_lr : Num.t;
  default_weight_decay : option Num.t;
  default_options : list (string * Num.t)
}.

(** A name of ASCII characters.  Strings are sequences of bytes here,
    while the pattern of line 135 works on code points: its [\d] also
    matches the decimal digits of other scripts, and its [.] one code
    point, whatever its number of bytes.  On a name of ASCII characters
    the two agree, and the functions below are the search of line 135. *)
Definition ascii_name (name : string) : bool :=
  forallb (fun c => (nat_of_ascii c <? 128)%nat) (list_ascii_of_string name).

(** [\d] on an ASCII character. *)
Definition is_digit (c : ascii) : bool :=
  let n := nat_of_ascii c in (48 <=? n)%nat && (n <=? 57)%nat.

Definition newline : ascii := ascii_of_nat 10.

(** [(weight|bias)] at the start of [s]. *)
Definition weight_or_bias (s : string) : bool :=
  String.prefix "weight" s || String.prefix "bias" s.

(** [(\d+)?.(weight|bias)] at the start of [s]: some digits, possibly
    none, one character other than a newline, then [weight] or [bias]. *)
Fixpoint after_norm (s : string) : bool :=
  match s with
  | EmptyString => false
  | String c r =>
      (negb (Ascii.eqb c newline) && weight_or_bias r)
      || (is_digit c && after_norm r)
  end.

(** [(bn|gn)(\d+)?.(weight|bias)] at the start of [s]. *)
Definition norm_here (s : string) : bool :=
  match s with
  | String c1 (String c2 r) =>
      (Ascii.eqb c1 "b" || Ascii.eqb c1 "g") && Ascii.eqb c2 "n"
      && after_norm r
  | _ => false
  end.

(** [re.search(r'(bn|gn)(\d+)?.(weight|bias)', name)] finds a match. *)
Fixpoint norm_layer (name : string) : bool :=
  norm_here name ||
  match name with
  | EmptyString => false
  | String _ r => norm_layer r
  end.

(** [s.endswith(suffix)]. *)
Fixpoint endswith (s suffix : string) : bool :=
  String.eqb s suffix ||
  match s with
  | EmptyString => false
  | String _ r => endswith r suffix
  end.

(** [d.get(key, 1.)]. *)
Definition get_mult (m : option Num.t) : Num.t :=
  match m with
  | Some v => v
  | None => Num.Fin 1
  end.

(** Lines 125-145: the group of one named parameter. *)
Definition group_of (base_lr : Num.t) (base_wd : option Num.t)
    (options : paramwise) (name : string) (param : parameter) : param_group :=
  if negb (requires_grad param) then mkGroup [param] None None
  else if norm_layer name then
    mkGroup [param] None
      (match base_wd with
       | Some wd => Some (Num.mul wd (get_mult (norm_decay_mult options)))
       | None => None
       end)
  else if endswith name ".bias" then
    mkGroup [param]
      (Some (Num.mul base_lr (get_mult (bias_lr_mult options))))
      (match base_wd with
       | Some wd => Some (Num.mul wd (get_mult (bias_decay_mult options)))
       | None => None
       end)
  else mkGroup [param] None None.

Inductive build_exn : Type := AssertionError.

(** [build_optimizer(model, optimizer_cfg)], where [named_parameters] are
    those of the model, unwrapped from its [module] attribute when it has
    one. *)
Definition build_optimizer (named_parameters : list (string * parameter))
    (optimizer_cfg : optimizer_config) : build_exn + optimizer :=
  match paramwise_options optimizer_cfg with
  | None =>
      inr (mkOptimizer (type optimizer_cfg)
             (AllParameters (map snd named_parameters))
             (lr optimizer_cfg) (weight_decay optimizer_cfg)
             (other_options optimizer_cfg))
  | Some options =>
      let base_lr := lr optimizer_cfg in
      let base_wd := weight_decay optimizer_cfg in
      match bias_decay_mult options, norm_decay_mult options, base_wd with
      | Some _, _, None | _, Some _, None => inl AssertionError
      | _, _, _ =>
          inr (mkOptimizer (type optimizer_cfg)
                 (Groups
                    (map (fun np =>
                            group_of base_lr base_wd options (fst np) (snd np))
                       named_parameters))
                 (lr optimizer_cfg) (weight_decay optimizer_cfg)
                 (other_options optimizer_cfg))
      end
  end.

(** ** [train_detector], [_dist_train], [_non_dist_train] (lines 55-68,
    151-235)

    The trainer is an external collaborator: a training function is
    modelled by the calls it makes to the loader builder and to the
    [Runner], in order, and by the exception of [build_optimizer] that
    stops it, if any. *)

(** The [optimizer_config] argument of [register_training_hooks]. *)
Inductive optimizer_hook : Type :=
| Fp16OptimizerHook (distributed : bool)
| DistOptimizerHook
| PlainOptimizerConfig.

Inductive hook : Type :=
| DistSamplerSeedHook
| CocoDistEvalRecallHook
| CocoDistEvalmAPHook
| DistEvalmAPHook.

Section Training.

Variable Dataset : Type.

Inductive call : Type :=
| BuildDataloader (ds : Dataset) (imgs_per_gpu workers_per_gpu : Z)
    (num_gpus : option Z) (dist : bool)
| NewRunner (opt : optimizer)
| RegisterTrainingHooks (h : optimizer_hook)
| RegisterHook (h : hook)
| Resume (checkpoint : string)
| LoadCheckpoint (checkpoint : string)
| RunnerRun (data_loaders : nat).

(** The fields of [cfg] that the training functions read: [cfg.data] and
    [cfg.gpus], [cfg.optimizer], whether [cfg.fp16] is there, whether the
    type of [cfg.data.val] is a subclass of [CocoDataset], and the two
    checkpoints. *)
Record train_config : Type := mkTrainConfig {
  data_cfg : config;
  optimizer_cfg : optimizer_config;
  fp16 : bool;
  val_is_coco : bool;
  resume_from : option string;
  load_from : option string
}.

(** The model: its named parameters and whether it is an [RPN]. *)
Record detector_model : Type := mkModel {
  named_parameters : list (string * parameter);
  is_rpn : bool
}.

(** [dataset if isinstance(dataset, (list, tuple)) else [dataset]]. *)
Definition as_list (dataset : Dataset + list Dataset) : list Dataset :=
  match dataset with
  | inl ds => [ds]
  | inr l => l
  end.

(** Lines 196-199 and 231-234: [resume_from] when it is set, else
    [load_from] when it is set. *)
Definition restore (cfg : train_config) : list call :=
  match resume_from cfg with
  | Some (String c r) => [Resume (String c r)]
  | _ =>
      match load_from cfg with
      | Some (String c r) => [LoadCheckpoint (String c r)]
      | _ => []
      end
  end.

(** Lines 180-194: the evaluation hook. *)
Definition eval_hook (model : detector_model) (cfg : train_config) : hook :=
  if is_rpn model then CocoDistEvalRecallHook
  else if val_is_coco cfg then CocoDistEvalmAPHook
  else DistEvalmAPHook.

Definition _dist_train (model : detector_model)
    (dataset : Dataset + list Dataset) (cfg : train_config) (validate : bool)
    : list call * option build_exn :=
  let data_loaders :=
    map (fun ds =>
           BuildDataloader ds (imgs_per_gpu (data_cfg cfg))
             (workers_per_gpu (data_cfg cfg)) None true)
      (as_list dataset) in
  match build_optimizer (named_parameters model) (optimizer_cfg cfg) with
  | inl e => (data_loaders, Some e)
  | inr optimizer =>
      (data_loaders
         ++ [NewRunner optimizer;
             RegisterTrainingHooks
               (if fp16 cfg then Fp16OptimizerHook true else DistOptimizerHook);
             RegisterHook DistSamplerSeedHook]
         ++ (if validate then [RegisterHook (eval_hook model cfg)] else [])
         ++ restore cfg
         ++ [RunnerRun (List.length data_loaders)],
       None)
  end.

Definition _non_dist_train (model : detector_model)
    (dataset : Dataset + list Dataset) (cfg : train_config) (validate : bool)
    : list call * option build_exn :=
  let data_loaders :=
    map (fun ds =>
           BuildDataloader ds (imgs_per_gpu (data_cfg cfg))
             (workers_per_gpu (data_cfg cfg)) (Some (gpus (data_cfg cfg)))
             false)
      (as_list dataset) in
  match build_optimizer (named_parameters model) (optimizer_cfg cfg) with
  | inl e => (data_loaders, Some e)
  | inr optimizer =>
      (data_loaders
         ++ [NewRunner optimizer;
             RegisterTrainingHooks
               (if fp16 cfg then Fp16OptimizerHook false
                else PlainOptimizerConfig)]
         ++ restore cfg
         ++ [RunnerRun (List.length data_loaders)],
       None)
  end.

(** Lines 55-68; the logger is not used after it is fetched. *)
Definition train_detector (model : detector_model)
    (dataset : Dataset + list Dataset) (cfg : train_config)
    (distributed validate : bool) : list call * option build_exn :=
  if distributed then _dist_train model dataset cfg validate
  else _non_dist_train model dataset cfg validate.

Definition is_eval_hook (c : call) : bool :=
  match c with
  | RegisterHook CocoDistEvalRecallHook
  | RegisterHook CocoDistEvalmAPHook
  | RegisterHook DistEvalmAPHook => true
  | _ => false
  end.

Definition is_restore (c : call) : bool :=
  match c with
  | Resume _ | LoadCheckpoint _ => true
  | _ => false
  end.

(** The path is set: neither [None] nor the empty string. *)
Definition is_set (path : option string) : bool :=
  match path with
  | Some (String _ _) => true
  | _ => false
  end.

Definition uses_runner (c : call) : bool :=
  match c with
  | BuildDataloader _ _ _ _ _ => false
  | _ => true
  end.

End Training.

(** ** Further sample inputs *)

Module Sample2.

Import Sample.
Open Scope string_scope.

(** No iteration; a negative cap. *)
Definition args_no_iter : arguments := mkArgs false "out/" 5 0 (fin 1).

Definition args_negative_cap : arguments :=
  mkArgs false "out/" (-1) 2 (fin 1).

(** A detector none of whose losses depends on the image. *)
Definition blind_detector (x : image) (data : batch) : result :=
  [("loss_cls", TList [mkTerm (fin 1) None]); ("acc", Tensor acc0)].

(** A batch with a one-channel image. *)
Definition gray : batch :=
  mkBatch [[[fin 1; fin 2]]] "data/gray.png" [fin 10; fin 20; fin 30]
    [fin 2; fin 3; fin 4] [] [].

(** An output directory with a sub-directory in it. *)
Definition state_with_dir : state :=
  mkState (mkConfig 4 8 1)
    [("old.jpg", File); ("sub", Dir); ("attack_old.jpg", File)]
    [] [] 0 0 [] [] Num.zero Num.zero.

Definition losses0 : list (string * loss_value) :=
  [("loss_cls", LTensor [fin 1; fin 3]);
   ("acc", LTensor [fin 90]);
   ("loss_bbox", LList [[fin 2]; [fin 4; fin 6]])].

Definition parameters0 : list (string * parameter) :=
  [("backbone.conv1.weight", mkParameter true 0);
   ("backbone.bn1.bias", mkParameter true 1);
   ("bbox_head.fc.bias", mkParameter true 2);
   ("backbone.conv0.bias", mkParameter false 3)].

Definition sgd (wd : option Num.t) (options : option paramwise)
    : optimizer_config :=
  mkOptimizerConfig "SGD" (Num.Fin (1 # 100)) wd options [].

Definition options0 : paramwise :=
  mkParamwise (Some (fin 2)) (Some (fin 0)) (Some (fin 0)).

Definition cfg_sgd : optimizer_config :=
  sgd (Some (Num.Fin (1 # 10000))) (Some options0).

Definition cfg_no_decay : optimizer_config :=
  sgd None (Some (mkParamwise (Some (fin 2)) None None)).

(** What [build_optimizer] returns on a config on which it succeeds. *)
Definition built (cfg : optimizer_config) : optimizer :=
  match build_optimizer parameters0 cfg with
  | inr opt => opt
  | inl _ => mkOptimizer "" (Groups []) Num.zero None []
  end.

Definition detector0 : detector_model := mkModel parameters0 false.

Definition train_cfg0 : train_config :=
  mkTrainConfig (mkConfig 2 2 1) cfg_sgd false true (Some "latest.pth")
    (Some "init.pth").

End Sample2.

(** ** Running the monad *)

Lemma bind_Ok (A B : Type) (m : M A) (k : A -> M B) s b s' :
  bind m k s = (Ok b, s') ->
  exists a s1, m s = (Ok a, s1) /\ k a s1 = (Ok b, s').
Proof.
  unfold bind. destruct (m s) as [[a | e] s1]; intros H.
  - exists a, s1. split; [reflexivity | exact H].
  - discriminate H.
Qed.

Lemma bind_run (A B : Type) (m : M A) (k : A -> M B) s a s1 :
  m s = (Ok a, s1) -> bind m k s = k a s1.
Proof. unfold bind. intros ->. reflexivity. Qed.

Lemma bind_Raise (A B : Type) (m : M A) (k : A -> M B) s e s1 :
  m s = (Raise e, s1) -> bind m k s = (Raise e, s1).
Proof. unfold bind. intros ->. reflexivity. Qed.

Lemma bind_assoc (A B C : Type) (m : M A) (k : A -> M B) (h : B -> M C) s :
  bind (bind m k) h s = bind m (fun a => bind (k a) h) s.
Proof. unfold bind. destruct (m s) as [[a | e] s1]; reflexivity. Qed.

Lemma lift_Ok (A : Type) (r : exn + A) s a s' :
  lift r s = (Ok a, s') -> r = inr a /\ s' = s.
Proof.
  destruct r as [e | a0]; unfold lift, raise, ret; intros H; inversion H.
  split; reflexivity.
Qed.

Lemma gets_Ok (A : Type) (f : state -> A) s a s' :
  gets f s = (Ok a, s') -> a = f s /\ s' = s.
Proof. unfold gets. intros H. inversion H. split; reflexivity. Qed.

Lemma modify_Ok (f : state -> state) s u s' :
  modify f s = (Ok u, s') -> s' = f s.
Proof. unfold modify. intros H. inversion H. reflexivity. Qed.

Lemma ret_Ok (A : Type) (a0 : A) s a s' :
  ret a0 s = (Ok a, s') -> a = a0 /\ s' = s.
Proof. unfold ret. intros H. inversion H. split; reflexivity. Qed.

(** Splits a completed run into the completed runs of its statements. *)
Ltac run_inv :=
  repeat match goal with
  | H : bind _ _ _ = (Ok _, _) |- _ =>
      let a := fresh "v" in
      let s := fresh "s" in
      let H1 := fresh "Run" in
      apply bind_Ok in H; destruct H as (a & s & H1 & H)
  | H : lift _ _ = (Ok _, _) |- _ =>
      let E := fresh "E" in
      apply lift_Ok in H; destruct H as [E ?]; subst
  | H : gets _ _ = (Ok _, _) |- _ =>
      apply gets_Ok in H; destruct H as [? ?]; subst
  | H : modify _ _ = (Ok _, _) |- _ => apply modify_Ok in H; subst
  | H : ret _ _ = (Ok _, _) |- _ =>
      apply ret_Ok in H; destruct H as [? ?]; subst
  end.

(** *** Frame conditions *)

Lemma preserves_ret (A B : Type) (f : state -> A) (b : B) :
  preserves f (ret b).
Proof. intros s. reflexivity. Qed.

Lemma preserves_raise (A B : Type) (f : state -> A) e :
  preserves f (@raise B e).
Proof. intros s. reflexivity. Qed.

Lemma preserves_lift (A B : Type) (f : state -> A) (r : exn + B) :
  preserves f (lift r).
Proof. destruct r; intros s; reflexivity. Qed.

Lemma preserves_gets (A B : Type) (f : state -> A) (g : state -> B) :
  preserves f (gets g).
Proof. intros s. reflexivity. Qed.

Lemma preserves_modify (A : Type) (f : state -> A) (g : state -> state) :
  (forall s, f (g s) = f s) -> preserves f (modify g).
Proof. intros H s. apply H. Qed.

Lemma preserves_bind (A B C : Type) (f : state -> A) (m : M B) (k : B -> M C) :
  preserves f m -> (forall b, preserves f (k b)) -> preserves f (bind m k).
Proof.
  intros Hm Hk s. unfold bind. specialize (Hm s).
  destruct (m s) as [[b | e] s1]; simpl in *.
  - rewrite Hk. exact Hm.
  - exact Hm.
Qed.

(** Discharges a frame condition statement by statement. *)
Ltac frame := repeat (intros; first
  [ apply preserves_bind | apply preserves_ret | apply preserves_raise
  | apply preserves_lift | apply preserves_gets
  | apply preserves_modify; intros; reflexivity
  | assumption ]).

(** ** Lists and tensors *)

Lemma nth_error_zip_with (A B C : Type) (f : A -> B -> C) l1 l2 n a b :
  nth_error l1 n = Some a -> nth_error l2 n = Some b ->
  nth_error (zip_with f l1 l2) n = Some (f a b).
Proof.
  revert l2 n. induction l1 as [| a1 l1 IH]; intros [| b1 l2] [| n]; simpl;
    try discriminate.
  - intros H1 H2. inversion H1. inversion H2. reflexivity.
  - apply IH.
Qed.

Lemma pixel_tmap f x c h w :
  pixel (tmap f x) c h w = option_map f (pixel x c h w).
Proof.
  unfold pixel, tmap. rewrite nth_error_map.
  destruct (nth_error x c) as [ch |]; simpl; [| reflexivity].
  rewrite nth_error_map.
  destruct (nth_error ch h) as [row |]; simpl; [| reflexivity].
  apply nth_error_map.
Qed.

Lemma pixel_tzip f x y c h w p q :
  pixel x c h w = Some p -> pixel y c h w = Some q ->
  pixel (tzip f x y) c h w = Some (f p q).
Proof.
  unfold pixel, tzip.
  destruct (nth_error x c) as [cx |] eqn:Hx; [| discriminate].
  destruct (nth_error y c) as [cy |] eqn:Hy; [| discriminate].
  rewrite (nth_error_zip_with _ _ _ _ Hx Hy).
  destruct (nth_error cx h) as [rx |] eqn:Hrx; [| discriminate].
  destruct (nth_error cy h) as [ry |] eqn:Hry; [| discriminate].
  rewrite (nth_error_zip_with _ _ _ _ Hrx Hry).
  apply nth_error_zip_with.
Qed.

Lemma tmap_tmap f g x : tmap f (tmap g x) = tmap (fun v => f (g v)) x.
Proof.
  unfold tmap. rewrite map_map. apply map_ext. intros ch.
  rewrite map_map. apply map_ext. intros row. apply map_map.
Qed.

Lemma tflat_tmap f x : tflat (tmap f x) = map f (tflat x).
Proof. unfold tflat, tmap. rewrite !concat_map. reflexivity. Qed.

Lemma all_entries_flat P x : all_entries P x <-> Forall P (tflat x).
Proof.
  unfold all_entries, tflat. rewrite !Forall_concat. reflexivity.
Qed.

Lemma Forall2_concat (A B : Type) (R : A -> B -> Prop) ll1 ll2 :
  Forall2 (Forall2 R) ll1 ll2 -> Forall2 R (List.concat ll1) (List.concat ll2).
Proof.
  induction 1 as [| l1 l2 ll1 ll2 H _ IH]; simpl.
  - constructor.
  - apply Forall2_app; assumption.
Qed.

Lemma pointwise_flat R x y :
  pointwise R x y -> Forall2 R (tflat x) (tflat y).
Proof.
  intros H. unfold tflat. apply Forall2_concat.
  induction H as [| cx cy x y Hc _ IH]; simpl.
  - constructor.
  - apply Forall2_app; [exact Hc | exact IH].
Qed.

Lemma zip_with_app (A B C : Type) (f : A -> B -> C) l1 l1' l2 l2' :
  List.length l1 = List.length l2 ->
  zip_with f (l1 ++ l1') (l2 ++ l2') = zip_with f l1 l2 ++ zip_with f l1' l2'.
Proof.
  revert l2. induction l1 as [| a l1 IH]; intros [| b l2]; simpl;
    try discriminate.
  - reflexivity.
  - intros H. f_equal. apply IH. congruence.
Qed.

Lemma concat_zip_with (A B C : Type) (R : A -> B -> Prop) (f : A -> B -> C)
    ll1 ll2 :
  Forall2 (Forall2 R) ll1 ll2 ->
  List.concat (zip_with (zip_with f) ll1 ll2)
    = zip_with f (List.concat ll1) (List.concat ll2).
Proof.
  induction 1 as [| l1 l2 ll1 ll2 H _ IH]; simpl.
  - reflexivity.
  - rewrite zip_with_app by (eapply Forall2_length; exact H).
    rewrite IH. reflexivity.
Qed.

Lemma tflat_tzip R f x y :
  pointwise R x y -> tflat (tzip f x y) = zip_with f (tflat x) (tflat y).
Proof.
  intros H. unfold tflat, tzip.
  rewrite <- (@concat_zip_with _ _ _ R f (List.concat x) (List.concat y)).
  - f_equal. apply (@concat_zip_with _ _ _ (Forall2 R)). exact H.
  - apply Forall2_concat. exact H.
Qed.

Lemma forallb2_Forall2 (A B : Type) (f : A -> B -> bool) (R : A -> B -> Prop)
    l1 l2 :
  (forall a b, f a b = true -> R a b) ->
  forallb2 f l1 l2 = true -> Forall2 R l1 l2.
Proof.
  intros Hf. revert l2. induction l1 as [| a l1 IH]; intros [| b l2]; simpl;
    try discriminate.
  - constructor.
  - intros H. apply andb_true_iff in H. destruct H as [Hab Hl].
    constructor; [apply Hf, Hab | apply IH, Hl].
Qed.

Lemma same_shape_pointwise x y :
  same_shape x y = true -> pointwise (fun _ _ => True) x y.
Proof.
  unfold same_shape, pointwise. apply forallb2_Forall2. intros cx cy.
  apply forallb2_Forall2. intros rx ry. apply forallb2_Forall2. trivial.
Qed.

(** One level of the update [x + h(g)] under a relation to a third list. *)
Lemma Forall2_zip_map (A B C D : Type) (R R' : A -> B -> Prop)
    (S : B -> C -> Prop) (P : C -> Prop) (f : B -> D -> B) (h : C -> D) :
  (forall a b c, R a b -> S b c -> P c -> R' a (f b (h c))) ->
  forall l0 l lg,
    Forall2 R l0 l -> Forall2 S l lg -> Forall P lg ->
    Forall2 R' l0 (zip_with f l (map h lg)).
Proof.
  intros Hstep l0 l lg H. revert lg.
  induction H as [| a b l0 l Hab _ IH]; intros lg HS HP.
  - inversion HS. constructor.
  - inversion HS as [| b' c l' lg' Hbc Hrest]; subst.
    inversion HP; subst. simpl. constructor.
    + apply Hstep; assumption.
    + apply IH; assumption.
Qed.

Lemma pointwise_update (R R' S : Num.t -> Num.t -> Prop) (P : Num.t -> Prop)
    f h x0 x g :
  (forall a b c, R a b -> P c -> R' a (f b (h c))) ->
  pointwise R x0 x -> pointwise S x g -> all_entries P g ->
  pointwise R' x0 (tzip f x (tmap h g)).
Proof.
  intros Hstep. unfold pointwise, all_entries, tzip, tmap.
  apply Forall2_zip_map. intros c0 c cg.
  apply Forall2_zip_map. intros r0 r rg.
  apply Forall2_zip_map. intros a b d Hab _ Hd. apply Hstep; assumption.
Qed.

Lemma all_entries_tzip_r (P Q : Num.t -> Prop) f x y :
  (forall a b, P b -> Q (f a b)) ->
  all_entries P y -> all_entries Q (tzip f x y).
Proof.
  intros Hf. unfold all_entries, tzip. revert x.
  induction y as [| cy y IHy]; intros [| cx x] H; simpl; try constructor.
  - inversion H as [| ? ? Hc _]; subst. clear IHy H. revert cx.
    induction cy as [| ry cy IHc]; intros [| rx cx]; simpl; try constructor.
    + inversion Hc as [| ? ? Hr _]; subst. clear IHc Hc. revert rx.
      induction ry as [| b ry IHr]; intros [| a rx]; simpl; try constructor.
      * inversion Hr; subst. apply Hf. assumption.
      * inversion Hr; subst. apply IHr. assumption.
    + inversion Hc; subst. apply IHc. assumption.
  - inversion H; subst. apply IHy. assumption.
Qed.

Lemma all_entries_tmap (P Q : Num.t -> Prop) f x :
  (forall v, P v -> Q (f v)) -> all_entries P x -> all_entries Q (tmap f x).
Proof.
  intros Hf H. apply all_entries_flat. rewrite tflat_tmap.
  apply all_entries_flat in H. apply Forall_map.
  eapply Forall_impl; [| exact H]. exact Hf.
Qed.

(** ** Arithmetic of tensor entries *)

Lemma qzero_true q : Num.qzero q = true <-> q == 0.
Proof. apply Qeq_bool_iff. Qed.

Lemma qzero_false q : Num.qzero q = false <-> ~ q == 0.
Proof.
  unfold Num.qzero. split.
  - apply Qeq_bool_neq.
  - intros H. destruct (Qeq_bool q 0) eqn:E; [| reflexivity].
    apply Qeq_bool_iff in E. contradiction.
Qed.

(** A finite maximum bounds its arguments, none of which is +inf or NaN. *)
Lemma max_Fin x y m :
  Num.max x y = Num.Fin m ->
  Num.leb x (Num.Fin m) = true /\ Num.leb y (Num.Fin m) = true.
Proof.
  destruct x as [a | | |], y as [b | | |]; simpl; try discriminate.
  - destruct (Qle_bool a b) eqn:E; intros H; inversion H as [Hm]; subst m.
    + split; [exact E | apply Qle_bool_iff, Qle_refl].
    + split; [apply Qle_bool_iff, Qle_refl |].
      destruct (Qlt_le_dec b a) as [Hlt | Hle].
      * apply Qle_bool_iff, Qlt_le_weak. exact Hlt.
      * apply Qle_bool_iff in Hle. congruence.
  - intros H. inversion H. split; [apply Qle_bool_iff, Qle_refl | reflexivity].
  - intros H. inversion H. split; [reflexivity | apply Qle_bool_iff, Qle_refl].
Qed.

Lemma leb_Fin_trans v a b :
  Num.leb v (Num.Fin a) = true -> a <= b -> Num.leb v (Num.Fin b) = true.
Proof.
  destruct v as [q | | |]; simpl; try discriminate; [| reflexivity].
  intros H Hab. apply Qle_bool_iff. apply Qle_bool_iff in H.
  eapply Qle_trans; eassumption.
Qed.

Lemma fold_max_Fin l a m :
  fold_left Num.max l a = Num.Fin m ->
  Num.leb a (Num.Fin m) = true /\
  Forall (fun v => Num.leb v (Num.Fin m) = true) l.
Proof.
  revert a m. induction l as [| v l IH]; simpl; intros a m H.
  - split; [| constructor]. rewrite H. apply Qle_bool_iff, Qle_refl.
  - apply IH in H. destruct H as [Hq Hl].
    destruct (Num.max a v) as [q | | |] eqn:Hmax; try discriminate Hq.
    + apply max_Fin in Hmax. destruct Hmax as [Ha Hv].
      apply Qle_bool_iff in Hq.
      split; [eapply leb_Fin_trans; eassumption |].
      constructor; [eapply leb_Fin_trans; eassumption | exact Hl].
    + destruct a as [qa | | |], v as [qv | | |]; simpl in Hmax;
        try discriminate Hmax.
      * destruct (Qle_bool qa qv); discriminate Hmax.
      * split; [reflexivity |]. constructor; [reflexivity | exact Hl].
Qed.

Lemma fold_max_bound l a e :
  (exists q, a = Num.Fin q /\ q <= e) ->
  Forall (fun v => exists q, v = Num.Fin q /\ q <= e) l ->
  exists q, fold_left Num.max l a = Num.Fin q /\ q <= e.
Proof.
  revert a. induction l as [| v l IH]; simpl; intros a Ha Hl.
  - exact Ha.
  - inversion Hl as [| ? ? (qv & -> & Hv) Hl']; subst.
    destruct Ha as (qa & -> & Hqa). apply IH; [| exact Hl'].
    simpl. destruct (Qle_bool qa qv); eauto.
Qed.

(** The entries of a tensor whose largest absolute value is the finite
    [m] are finite and bounded by [m]. *)
Lemma tmax_abs_bounded g m :
  tmax (tmap Num.abs g) = Some (Num.Fin m) -> all_entries (bounded m) g.
Proof.
  unfold tmax. rewrite tflat_tmap. intros H. apply all_entries_flat.
  destruct (map Num.abs (tflat g)) as [| a l] eqn:Hm; [discriminate |].
  inversion H as [Hfold]. apply fold_max_Fin in Hfold.
  destruct Hfold as [Ha Hl].
  assert (Hall : Forall (fun v => Num.leb v (Num.Fin m) = true)
                   (map Num.abs (tflat g))).
  { rewrite Hm. constructor; assumption. }
  apply Forall_map in Hall. eapply Forall_impl; [| exact Hall].
  intros v Hv. destruct v as [qv | | |]; try discriminate Hv.
  exists qv. split; [reflexivity | apply Qle_bool_iff; exact Hv].
Qed.

Lemma tmax_nonempty x m : tmax x = Some m -> tflat x <> [].
Proof. unfold tmax. destruct (tflat x); [discriminate | discriminate]. Qed.

(** *** The step of line 278 on one entry *)

(** With a zero maximum the entry becomes NaN, whatever the budget. *)
Lemma step_entry_zero_max step p d m :
  bounded m d -> m == 0 ->
  Num.add p (Num.div (Num.mul step d) (Num.Fin m)) = Num.NaN.
Proof.
  intros (q & -> & Hq) Hm.
  assert (Hq0 : q == 0).
  { apply Qabs_Qle_condition in Hq. destruct Hq as [Hl Hu].
    rewrite Hm in Hl, Hu. apply Qle_antisym; [exact Hu |].
    eapply Qle_trans; [| exact Hl]. discriminate. }
  assert (Hz : Num.qzero m = true) by (apply qzero_true; exact Hm).
  assert (Hc : (q ?= 0) = Eq) by (apply Qeq_alt; exact Hq0).
  assert (Hdiv : Num.div (Num.mul step (Num.Fin q)) (Num.Fin m) = Num.NaN).
  { destruct step as [s | | |]; simpl; rewrite ?Hz, ?Hc; simpl; try reflexivity.
    assert (Hs : (s * q ?= 0) = Eq).
    { apply Qeq_alt. rewrite Hq0. ring. }
    rewrite Hs. reflexivity. }
  rewrite Hdiv. destruct p; reflexivity.
Qed.

(** With a non-zero maximum a finite entry moves by at most the step. *)
Lemma step_entry_close D delta a b d m :
  0 <= delta -> ~ m == 0 ->
  close D a b -> bounded m d ->
  close (D + delta) a
    (Num.add b (Num.div (Num.mul (Num.Fin delta) d) (Num.Fin m))).
Proof.
  intros Hdelta Hm (qa & qb & -> & -> & Hab) (q & -> & Hq).
  assert (Hpos : 0 < m).
  { pose proof (Qabs_nonneg q) as H0.
    destruct (Qlt_le_dec 0 m) as [Hlt | Hle]; [exact Hlt |].
    exfalso. apply Hm. apply Qle_antisym; [exact Hle |].
    eapply Qle_trans; eassumption. }
  simpl. apply qzero_false in Hm. rewrite Hm.
  exists qa, (qb + delta * q / m). repeat split.
  apply Qabs_Qle_condition in Hq. destruct Hq as [Hl Hu].
  apply Qabs_Qle_condition in Hab. destruct Hab as [Hal Hau].
  assert (Hr : -(1) <= q / m <= 1).
  { split.
    - apply Qle_shift_div_l; [exact Hpos |]. lra.
    - apply Qle_shift_div_r; [exact Hpos |]. lra. }
  set (r := q / m) in *.
  assert (Ht : delta * q / m == delta * r) by (unfold r; field; lra).
  rewrite Ht. destruct Hr as [Hr1 Hr2].
  apply Qabs_Qle_condition. split; nra.
Qed.

(** ** Denormalization *)

Lemma denorm_normalize s m p :
  usable_std s = true -> Num.is_finite m = true ->
  Num.equiv (denorm s m (normalize s m p)) p.
Proof.
  destruct s as [qs | | |]; try discriminate.
  destruct m as [qm | | |]; try discriminate.
  simpl. intros Hs _. apply negb_true_iff in Hs.
  pose proof Hs as Hnz. apply qzero_false in Hnz.
  assert (Hc : (qs ?= 0) <> Eq) by (intros H; apply Hnz, Qeq_alt, H).
  unfold denorm, normalize, Num.sub.
  destruct p as [q | | |]; simpl; rewrite ?Hs; simpl.
  - field. exact Hnz.
  - destruct (qs ?= 0) eqn:E; [contradiction | |]; simpl; rewrite E; exact I.
  - destruct (qs ?= 0) eqn:E; [contradiction | |]; simpl; rewrite E; exact I.
  - exact I.
Qed.

Lemma denorm_normalize_channel s m (ch : list (list Num.t)) :
  usable_std s = true -> Num.is_finite m = true ->
  Forall2 (Forall2 Num.equiv)
    (map (map (denorm s m)) (map (map (normalize s m)) ch)) ch.
Proof.
  intros Hs Hm. induction ch as [| row ch IH]; simpl; constructor; [| exact IH].
  clear IH. induction row as [| p row IH]; simpl; constructor; [| exact IH].
  apply denorm_normalize; assumption.
Qed.

(** C8.  For a usable [std] (finite, not zero) and a finite [mean],
    [denorm] undoes [normalize] on every pixel value, and the loop of
    lines 286-288 gives back the image that the data source normalized. *)
Theorem denorm_inverts_normalize stds means u x :
  List.length stds = 3%nat -> List.length means = 3%nat ->
  List.length u = 3%nat -> List.length x = 3%nat ->
  forallb usable_std stds = true ->
  forallb Num.is_finite means = true ->
  (forall s m p, In s stds -> In m means ->
     Num.equiv (denorm s m (normalize s m p)) p) /\
  exists x' u',
    denorm_loop stds means [0; 1; 2]%nat x (normalize_image stds means u)
      = inr (x', u') /\
    pointwise Num.equiv u' u.
Proof.
  intros Hls Hlm Hlu Hlx Hs Hm. split.
  - intros s m p Hin Him. rewrite forallb_forall in Hs, Hm.
    apply denorm_normalize; auto.
  - destruct stds as [| s0 [| s1 [| s2 [| ? ?]]]]; try discriminate Hls.
    destruct means as [| m0 [| m1 [| m2 [| ? ?]]]]; try discriminate Hlm.
    destruct u as [| u0 [| u1 [| u2 [| ? ?]]]]; try discriminate Hlu.
    destruct x as [| x0 [| x1 [| x2 [| ? ?]]]]; try discriminate Hlx.
    simpl in Hs, Hm.
    repeat match goal with
           | H : _ && _ = true |- _ => apply andb_true_iff in H; destruct H
           end.
    eexists _, _. split; [reflexivity |].
    repeat constructor; apply denorm_normalize_channel; assumption.
Qed.

(** ** Properties of the attack loop *)

Section Properties.

Variable Dataset : Type.
Variable build_dataloader : Dataset -> Z -> Z -> Z -> list batch.
Variable model : image -> batch -> result.
Variable args : arguments.

#[local] Abbreviation step := (attack_step model args).
#[local] Abbreviation iters := (attack_iters model args).
#[local] Abbreviation one_batch := (attack_batch model args).
#[local] Abbreviation batches := (attack_batches model args).
#[local] Abbreviation detector := (attack_detector build_dataloader model args).
#[local] Abbreviation prepare := (setup build_dataloader args).

(** *** What the loops leave alone *)

Lemma attack_step_frame (A : Type) (f : state -> A) data :
  (forall l s, f (set_acc_list l s) = f s) ->
  (forall x s, f (set_imgs x s) = f s) ->
  (forall n s, f (set_pbar_inner n s) = f s) ->
  preserves f (step data).
Proof.
  intros Hacc Himgs Hbar. unfold attack_step.
  repeat (intros; first
    [ apply preserves_bind | apply preserves_lift | apply preserves_gets
    | apply preserves_modify; intros; auto ]).
Qed.

Lemma attack_iters_frame (A : Type) (f : state -> A) k data :
  (forall l s, f (set_acc_list l s) = f s) ->
  (forall x s, f (set_imgs x s) = f s) ->
  (forall n s, f (set_pbar_inner n s) = f s) ->
  preserves f (iters k data).
Proof.
  intros Hacc Himgs Hbar. induction k as [| k IH]; simpl.
  - apply preserves_ret.
  - apply preserves_bind; [apply attack_step_frame; assumption | intros; exact IH].
Qed.

Lemma attack_batch_cfg data : preserves cfg (one_batch data).
Proof.
  unfold attack_batch, visualize_img.
  apply preserves_bind; [frame |]. intros.
  apply preserves_bind; [apply attack_iters_frame; reflexivity |].
  frame.
Qed.

Lemma attack_batch_save_dir data : preserves save_dir (one_batch data).
Proof.
  unfold attack_batch, visualize_img.
  apply preserves_bind; [frame |]. intros.
  apply preserves_bind; [apply attack_iters_frame; reflexivity |].
  frame.
Qed.

Lemma attack_batches_frame (A : Type) (f : state -> A) i mb loader :
  (forall data, preserves f (one_batch data)) ->
  preserves f (batches i mb loader).
Proof.
  intros H. revert i. induction loader as [| data loader IH]; intros i; simpl.
  - apply preserves_ret.
  - destruct (mb <=? i)%Z; [apply preserves_ret |].
    apply preserves_bind; [apply H | intros; apply IH].
Qed.

Lemma evaluate_cfg loader : preserves cfg (evaluate model args loader).
Proof.
  unfold evaluate, report, print.
  apply preserves_bind; [frame | intros].
  apply preserves_bind;
    [apply attack_batches_frame; apply attack_batch_cfg | frame].
Qed.

Lemma os_remove_frame (A : Type) (f : state -> A) name :
  (forall d s, f (set_save_dir d s) = f s) -> preserves f (os_remove name).
Proof.
  intros H. unfold os_remove. apply preserves_bind; [apply preserves_gets |].
  intros d. destruct (find _ d) as [[n [|]] |];
    first [apply preserves_raise | apply preserves_modify; intros; apply H].
Qed.

Lemma remove_all_frame (A : Type) (f : state -> A) l :
  (forall d s, f (set_save_dir d s) = f s) -> preserves f (remove_all l).
Proof.
  intros H. induction l as [| name l IH]; simpl.
  - apply preserves_ret.
  - apply preserves_bind; [apply os_remove_frame; exact H | intros; exact IH].
Qed.

(** *** Clearing the output directory *)

(** A completed [remove_all] leaves only entries that were there and whose
    names are not listed. *)
Lemma remove_all_Ok l s s' :
  remove_all l s = (Ok tt, s') ->
  forall e, In e (save_dir s') -> In e (save_dir s) /\ ~ In (fst e) l.
Proof.
  revert s. induction l as [| name l IH]; simpl; intros s H e He.
  - run_inv. split; [exact He | intros []].
  - run_inv. unfold os_remove in Run. run_inv.
    assert (Hs : save_dir s0 =
                 filter (fun e => negb (String.eqb (fst e) name)) (save_dir s)).
    { destruct (find _ (save_dir s)) as [[n [|]] |]; try discriminate Run;
        run_inv; reflexivity. }
    destruct (IH _ H e He) as [Hin Hl]. rewrite Hs in Hin.
    apply filter_In in Hin. destruct Hin as [Hin Hne]. split; [exact Hin |].
    intros [Heq | Hl']; [| exact (Hl Hl')].
    subst name. rewrite String.eqb_refl in Hne. discriminate Hne.
Qed.

(** [os.remove] raises on nothing but a directory. *)
Lemma remove_all_files l s :
  Forall (fun e => snd e = File) (save_dir s) ->
  exists s', remove_all l s = (Ok tt, s').
Proof.
  revert s. induction l as [| name l IH]; simpl; intros s Hs.
  - exists s. reflexivity.
  - set (d := filter (fun e => negb (String.eqb (fst e) name)) (save_dir s)).
    assert (Hrm : os_remove name s = (Ok tt, set_save_dir d s)).
    { unfold os_remove, bind, gets.
      destruct (find _ (save_dir s)) as [[n k] |] eqn:Hf; [| reflexivity].
      apply find_some in Hf. destruct Hf as [Hin _].
      rewrite Forall_forall in Hs. specialize (Hs _ Hin). simpl in Hs.
      subst k. reflexivity. }
    destruct (IH (set_save_dir d s)) as [s' Hs'].
    { simpl. rewrite Forall_forall in *. intros e He.
      apply filter_In in He. apply Hs, He. }
    exists s'. erewrite bind_run; [| exact Hrm]. exact Hs'.
Qed.

(** Lines 239-247 in one piece. *)
Lemma setup_run ds s :
  prepare ds s =
    let s0 := set_cfg (mkConfig 0 1 (gpus (cfg s))) s in
    let loader := build_dataloader ds 1 0 (gpus (cfg s)) in
    if clear_output args then
      match remove_all (map fst (save_dir s)) s0 with
      | (Ok _, s') => (Ok loader, s')
      | (Raise e, s') => (Raise e, s')
      end
    else (Ok loader, s0).
Proof.
  unfold setup, bind, modify, gets, ret. simpl.
  destruct (clear_output args); [| reflexivity].
  destruct (remove_all _ _) as [[[] | e] s']; reflexivity.
Qed.

(** C7.  With [clear_output] set, the state in which the loop over the
    batches starts has an empty [save_path] directory and no image written
    yet, and the clearing completes when the directory holds only files;
    with [clear_output] unset, the directory is what it was. *)
Theorem clear_output_empties_save_path ds s :
  (clear_output args = true ->
     (forall loader s', setup build_dataloader args ds s = (Ok loader, s') ->
        save_dir s' = [] /\ rendered s' = rendered s) /\
     (Forall (fun e => snd e = File) (save_dir s) ->
        exists loader s',
          setup build_dataloader args ds s = (Ok loader, s'))) /\
  (clear_output args = false ->
     exists loader s', setup build_dataloader args ds s = (Ok loader, s') /\
       save_dir s' = save_dir s /\ rendered s' = rendered s).
Proof.
  rewrite setup_run. cbv zeta.
  set (s0 := set_cfg (mkConfig 0 1 (gpus (cfg s))) s).
  split; intros Hclear; rewrite Hclear.
  - split.
    + intros loader s' H.
      destruct (remove_all _ s0) as [[[] | e] s1] eqn:Hr; inversion H; subst.
      split.
      * destruct (save_dir s') as [| e d] eqn:Hd; [reflexivity |]. exfalso.
        destruct (remove_all_Ok _ _ Hr e) as [Hin Hn].
        { rewrite Hd. left. reflexivity. }
        apply Hn. apply in_map. exact Hin.
      * pose proof (@remove_all_frame _ rendered (map fst (save_dir s))
                      (fun _ _ => eq_refl) s0) as Hf.
        rewrite Hr in Hf. exact Hf.
    + intros Hfiles.
      destruct (@remove_all_files (map fst (save_dir s)) s0 Hfiles) as [s' Hs'].
      rewrite Hs'. eexists _, s'. reflexivity.
  - eexists _, s0. split; [reflexivity |]. split; reflexivity.
Qed.

(** C10.  Whatever the caller configured and however the run ends, the
    [cfg] object is left with [workers_per_gpu = 0] and [imgs_per_gpu = 1],
    and the loader of the run was built with these two values. *)
Theorem attack_detector_overrides_cfg ds s :
  cfg (snd (attack_detector build_dataloader model args ds s))
    = mkConfig 0 1 (gpus (cfg s)) /\
  (forall loader s', setup build_dataloader args ds s = (Ok loader, s') ->
     loader = build_dataloader ds 1 0 (gpus (cfg s))).
Proof.
  set (s0 := set_cfg (mkConfig 0 1 (gpus (cfg s))) s).
  assert (Hsetup : cfg (snd (prepare ds s)) = cfg s0 /\
            (forall loader s', prepare ds s = (Ok loader, s') ->
               loader = build_dataloader ds 1 0 (gpus (cfg s)))).
  { rewrite setup_run. cbv zeta. fold s0.
    destruct (clear_output args).
    - pose proof (@remove_all_frame _ cfg (map fst (save_dir s))
                    (fun _ _ => eq_refl) s0) as Hf.
      destruct (remove_all _ s0) as [[[] | e] s1]; simpl in *.
      + split; [exact Hf |]. intros loader s' H. inversion H. reflexivity.
      + split; [exact Hf |]. intros loader s' H. discriminate H.
    - split; [reflexivity |]. intros loader s' H. inversion H. reflexivity. }
  destruct Hsetup as [Hcfg Hloader]. split; [| exact Hloader].
  unfold attack_detector, bind.
  destruct (prepare ds s) as [[loader | e] s1]; simpl in *.
  - rewrite evaluate_cfg. exact Hcfg.
  - exact Hcfg.
Qed.

(** *** One iteration *)

Lemma getitem_inl d key e : getitem d key = inl e -> e = KeyError key.
Proof.
  induction d as [| [k v] d IH]; simpl.
  - intros H. inversion H. reflexivity.
  - destruct (String.eqb k key); [discriminate | exact IH].
Qed.

(** A completed iteration: the accuracy is appended, the image moved. *)
Lemma attack_step_Ok data s s' :
  step data s = (Ok tt, s') ->
  exists acc g x',
    getitem (model (imgs s) data) "acc" = inr acc /\
    image_gradient model (imgs s) data = inr g /\
    perturb (epsilon args) (num_attack_iter args) (imgs s) g = inr x' /\
    s' = set_pbar_inner (S (pbar_inner s))
           (set_imgs x' (set_acc_list (acc_list s ++ [acc]) s)).
Proof.
  unfold attack_step, image_gradient. intros H. run_inv.
  eexists _, _, _. repeat split; eassumption.
Qed.

Lemma attack_step_missing_acc data s e :
  getitem (model (imgs s) data) "acc" = inl e ->
  step data s = (Raise e, s).
Proof.
  intros H. unfold attack_step, bind, gets, lift. rewrite H. reflexivity.
Qed.

(** *** The inner loop *)

Lemma attack_iters_add j k data s :
  iters (j + k) data s = bind (iters j data) (fun _ => iters k data) s.
Proof.
  revert s. induction j as [| j IH]; intros s; simpl.
  - reflexivity.
  - rewrite bind_assoc.
    destruct (step data s) as [[[] | e] s1] eqn:E.
    + rewrite !(@bind_run _ _ _ _ _ _ _ E). apply IH.
    + rewrite !(@bind_Raise _ _ _ _ _ _ _ E). reflexivity.
Qed.

Lemma attack_iters_acc_list k data s s' :
  iters k data s = (Ok tt, s') ->
  exists l, acc_list s' = acc_list s ++ l /\ List.length l = k.
Proof.
  revert s. induction k as [| k IH]; simpl; intros s H.
  - run_inv. exists []. split; [symmetry; apply app_nil_r | reflexivity].
  - run_inv. destruct v. apply attack_step_Ok in Run.
    destruct Run as (acc & g & x' & _ & _ & _ & ->).
    apply IH in H. destruct H as (l & Hl & Hlen). simpl in Hl.
    exists (acc :: l). split; [| simpl; congruence].
    rewrite Hl, <- app_assoc. reflexivity.
Qed.

(** *** One batch *)

(** A completed batch: the trace of its iterations, the two running totals,
    the two files and the progress bar. *)
Lemma attack_batch_Ok data s s' :
  one_batch data s = (Ok tt, s') ->
  exists s1 first last x raw,
    iters (Z.to_nat (num_attack_iter args)) data (start_batch data s)
      = (Ok tt, s1) /\
    index (acc_list s1) 0 = inr first /\
    index_last (acc_list s1) = inr last /\
    plus_entry (acc_before_attack s) first = inr (acc_before_attack s') /\
    plus_entry (acc_under_attack s) last = inr (acc_under_attack s') /\
    acc_list s' = acc_list s1 /\
    rendered s' =
      rendered s ++
        [((save_path args ++ basename (filename data))%string, raw);
         ((save_path args ++ "attack_" ++ basename (filename data))%string,
          x)] /\
    pbar_outer s' = S (pbar_outer s) /\
    stdout s' = stdout s.
Proof.
  unfold attack_batch, visualize_img. intros H. run_inv.
  pose proof (@attack_iters_frame _ acc_before_attack
                (Z.to_nat (num_attack_iter args)) data
                (fun _ _ => eq_refl) (fun _ _ => eq_refl) (fun _ _ => eq_refl)
                (start_batch data s)) as Hb.
  pose proof (@attack_iters_frame _ acc_under_attack
                (Z.to_nat (num_attack_iter args)) data
                (fun _ _ => eq_refl) (fun _ _ => eq_refl) (fun _ _ => eq_refl)
                (start_batch data s)) as Hu.
  pose proof (@attack_iters_frame _ rendered
                (Z.to_nat (num_attack_iter args)) data
                (fun _ _ => eq_refl) (fun _ _ => eq_refl) (fun _ _ => eq_refl)
                (start_batch data s)) as Hr.
  pose proof (@attack_iters_frame _ pbar_outer
                (Z.to_nat (num_attack_iter args)) data
                (fun _ _ => eq_refl) (fun _ _ => eq_refl) (fun _ _ => eq_refl)
                (start_batch data s)) as Hp.
  pose proof (@attack_iters_frame _ stdout
                (Z.to_nat (num_attack_iter args)) data
                (fun _ _ => eq_refl) (fun _ _ => eq_refl) (fun _ _ => eq_refl)
                (start_batch data s)) as Ho.
  rewrite Run0 in Hb, Hu, Hr, Hp, Ho. simpl in Hb, Hu, Hr, Hp, Ho.
  destruct v0. 
  eexists _, _, _, _, _. split; [exact Run0 |]. simpl.
  rewrite <- Hb, <- Hu. 
  repeat split; try eassumption; try reflexivity.
  - rewrite Hr, <- app_assoc. reflexivity.
  - rewrite Hp. reflexivity.
Qed.

(** *** The accuracy trace *)

Lemma index_last_snoc (A : Type) (l : list A) (a : A) :
  index_last (l ++ [a]) = inr a.
Proof.
  unfold index_last, index. rewrite length_app. simpl.
  replace (List.length l + 1 - 1)%nat with (List.length l) by lia.
  rewrite nth_error_app2 by lia. rewrite Nat.sub_diag. reflexivity.
Qed.

(** The trace of a completed inner loop that starts with an empty trace:
    one value per iteration, the first measured on the image the loop
    starts with, the last on the image the last iteration starts with. *)
Lemma attack_iters_trace k data s s' :
  acc_list s = [] ->
  iters (S k) data s = (Ok tt, s') ->
  List.length (acc_list s') = S k /\
  exists first last s_last,
    index (acc_list s') 0 = inr first /\
    index_last (acc_list s') = inr last /\
    getitem (model (imgs s) data) "acc" = inr first /\
    iters k data s = (Ok tt, s_last) /\
    getitem (model (imgs s_last) data) "acc" = inr last.
Proof.
  intros Hnil H. split.
  - apply attack_iters_acc_list in H. destruct H as (l & Hl & Hlen).
    rewrite Hl, Hnil. exact Hlen.
  - pose proof H as Hfirst. simpl in Hfirst. run_inv. destruct v.
    apply attack_step_Ok in Run. destruct Run as (first & g & x' & Hacc & _ & _ & ->).
    apply attack_iters_acc_list in Hfirst. destruct Hfirst as (l & Hl & _).
    simpl in Hl. rewrite Hnil in Hl. simpl in Hl.
    replace (S k) with (k + 1)%nat in H by lia.
    rewrite attack_iters_add in H. run_inv. destruct v. simpl in H. run_inv.
    destruct v. apply attack_step_Ok in Run0.
    destruct Run0 as (last & g' & x'' & Hacc' & _ & _ & ->). simpl in *.
    exists first, last, s0. repeat split; try assumption.
    + rewrite Hl. reflexivity.
    + apply index_last_snoc.
Qed.

(** C4, as the code has it.  After a processed batch the accuracy trace has
    [num_attack_iter] elements, one per iteration; the first is the
    accuracy of the model on the image of the batch and is what the batch
    adds to the total before attack; the last is the accuracy of the model
    on the image that the last iteration starts with, the one left by the
    [num_attack_iter - 1] updates before it, and is what the batch adds to
    the total under attack. *)
Theorem acc_trace_length data s s' :
  attack_batch model args data s = (Ok tt, s') ->
  Z.of_nat (List.length (acc_list s')) = num_attack_iter args /\
  exists first last s_last,
    index (acc_list s') 0 = inr first /\
    index_last (acc_list s') = inr last /\
    getitem (model (img data) data) "acc" = inr first /\
    attack_iters model args (Z.to_nat (num_attack_iter args) - 1) data
      (start_batch data s) = (Ok tt, s_last) /\
    getitem (model (imgs s_last) data) "acc" = inr last /\
    plus_entry (acc_before_attack s) first = inr (acc_before_attack s') /\
    plus_entry (acc_under_attack s) last = inr (acc_under_attack s').
Proof.
  intros H. apply attack_batch_Ok in H.
  destruct H as (s1 & first & last & x & raw & Hit & Hfirst & Hlast
                 & Hb & Hu & Hacc & _).
  rewrite Hacc.
  destruct (Z.to_nat (num_attack_iter args)) as [| k] eqn:Hn.
  - simpl in Hit. run_inv. discriminate Hfirst.
  - destruct (attack_iters_trace k data (start_batch data s) eq_refl Hit)
      as (Hlen & first' & last' & s_last & Hf' & Hl' & Hm & Hk & Hm').
    split; [rewrite Hlen; lia |].
    rewrite Hf' in Hfirst. rewrite Hl' in Hlast.
    inversion Hfirst; inversion Hlast; subst.
    exists first, last, s_last. simpl. rewrite Nat.sub_0_r.
    repeat split; assumption.
Qed.

(** *** Exceptions are not caught *)

Lemma attack_iters_Raise j k data s s1 e s2 :
  iters j data s = (Ok tt, s1) ->
  step data s1 = (Raise e, s2) ->
  iters (j + S k) data s = (Raise e, s2).
Proof.
  intros Hj He. rewrite attack_iters_add.
  rewrite (@bind_run _ _ _ _ _ _ _ Hj). simpl.
  apply bind_Raise. exact He.
Qed.

Lemma attack_batch_Raise data s e s2 :
  iters (Z.to_nat (num_attack_iter args)) data (start_batch data s)
    = (Raise e, s2) ->
  one_batch data s = (Raise e, s2).
Proof.
  intros H. unfold attack_batch.
  rewrite (@bind_run _ _ (modify (start_batch data)) _ s tt
             (start_batch data s) eq_refl).
  apply bind_Raise. exact H.
Qed.

Lemma attack_batches_Raise pre data post i mb s s1 e s2 :
  batches i mb pre s = (Ok tt, s1) ->
  (i + Z.of_nat (List.length pre) < mb)%Z ->
  one_batch data s1 = (Raise e, s2) ->
  batches i mb (pre ++ data :: post) s = (Raise e, s2).
Proof.
  revert i s. induction pre as [| d pre IH]; simpl; intros i s Hpre Hlt He.
  - run_inv. destruct (mb <=? i)%Z eqn:Hle; [apply Z.leb_le in Hle; lia |].
    apply bind_Raise. exact He.
  - destruct (mb <=? i)%Z eqn:Hle; [apply Z.leb_le in Hle; lia |].
    run_inv. destruct v. rewrite (@bind_run _ _ _ _ _ _ _ Run).
    apply IH; [exact Hpre | lia | exact He].
Qed.

(** C6.  When the model returns a result without ['acc'] at some iteration
    of some batch, that iteration raises [KeyError] before the trace is
    extended, and [attack_detector] ends with this exception in the state
    of that moment: the trace holds the values of the earlier iterations
    only. *)
Theorem missing_acc_is_fatal ds s loader s0 pre data post s1 j s2 :
  setup build_dataloader args ds s = (Ok loader, s0) ->
  loader = pre ++ data :: post ->
  (Z.of_nat (List.length pre) < max_attack_batches args)%Z ->
  attack_batches model args 0 (max_batch_of args loader) pre (start_loop s0)
    = (Ok tt, s1) ->
  (j < Z.to_nat (num_attack_iter args))%nat ->
  attack_iters model args j data (start_batch data s1) = (Ok tt, s2) ->
  getitem (model (imgs s2) data) "acc" = inl (KeyError "acc") ->
  attack_step model args data s2 = (Raise (KeyError "acc"), s2) /\
  attack_detector build_dataloader model args ds s
    = (Raise (KeyError "acc"), s2) /\
  List.length (acc_list s2) = j.
Proof.
  intros Hsetup Hloader Hcap Hpre Hj Hiters Hacc.
  pose proof (attack_step_missing_acc data s2 Hacc) as Hstep.
  split; [exact Hstep |]. split.
  - unfold attack_detector. rewrite (@bind_run _ _ _ _ _ _ _ Hsetup).
    unfold evaluate.
    rewrite (@bind_run _ _ (modify start_loop) _ s0 tt (start_loop s0) eq_refl).
    apply bind_Raise. rewrite Hloader at 2.
    apply attack_batches_Raise with (s1 := s1).
    + exact Hpre.
    + unfold max_batch_of. rewrite Hloader, length_app. simpl List.length. lia.
    + apply attack_batch_Raise.
      replace (Z.to_nat (num_attack_iter args))
        with (j + S (Z.to_nat (num_attack_iter args) - S j))%nat by lia.
      apply attack_iters_Raise with (s1 := s2); assumption.
  - apply attack_iters_acc_list in Hiters. destruct Hiters as (l & Hl & Hlen).
    rewrite Hl. simpl. exact Hlen.
Qed.

(** *** The loop over the batches *)

Lemma attack_batches_Ok loader i mb s s' :
  (0 <= i)%Z ->
  batches i mb loader s = (Ok tt, s') ->
  exists firsts lasts,
    processed model args (firstn (Z.to_nat (mb - i)) loader) s s' firsts lasts /\
    acc_before_attack s' = fold_left Num.add firsts (acc_before_attack s) /\
    acc_under_attack s' = fold_left Num.add lasts (acc_under_attack s) /\
    pbar_outer s' = (pbar_outer s + List.length firsts)%nat /\
    stdout s' = stdout s.
Proof.
  revert i s. induction loader as [| data loader IH]; simpl; intros i s Hi H.
  - run_inv. exists [], []. rewrite firstn_nil. simpl.
    repeat split; [constructor | lia].
  - destruct (mb <=? i)%Z eqn:Hle.
    + apply Z.leb_le in Hle. run_inv.
      replace (Z.to_nat (mb - i)) with 0%nat by lia. exists [], []. simpl.
      repeat split; [constructor | lia].
    + apply Z.leb_gt in Hle. run_inv. destruct v.
      apply IH in H; [| lia].
      destruct H as (firsts & lasts & Hp & Hb & Hu & Hbar & Hout).
      pose proof Run as Hbatch. apply attack_batch_Ok in Hbatch.
      destruct Hbatch as (s1 & first & last & x & raw & _ & Hf & Hl & Hpb
                          & Hpu & Hacc & _ & Hbar0 & Hout0).
      destruct first as [a | ?]; [| discriminate Hpb].
      destruct last as [b | ?]; [| discriminate Hpu].
      exists (value a :: firsts), (value b :: lasts).
      replace (Z.to_nat (mb - i)) with (S (Z.to_nat (mb - (i + 1)))) by lia.
      simpl. inversion Hpb as [Hb0]. inversion Hpu as [Hu0].
      repeat split.
      * econstructor; [exact Run | | | exact Hp]; rewrite Hacc; assumption.
      * rewrite Hb, Hb0. reflexivity.
      * rewrite Hu, Hu0. reflexivity.
      * rewrite Hbar, Hbar0. lia.
      * rewrite Hout. exact Hout0.
Qed.

Lemma processed_length l s s' firsts lasts :
  processed model args l s s' firsts lasts ->
  List.length firsts = List.length l /\ List.length lasts = List.length l.
Proof.
  induction 1 as [| data l s s1 s2 a b firsts lasts _ _ _ _ [IH1 IH2]]; simpl.
  - split; reflexivity.
  - split; congruence.
Qed.

(** C5.  With a positive cap, a completed [evaluate] has processed the
    first [n = min(len(loader), max_attack_batches)] batches of the loader
    and no other, and the two means it prints are the sums of the first and
    of the last trace values of these [n] batches divided by [n]; with a
    cap equal to the length of the loader these are all its batches. *)
Theorem mean_over_processed_batches loader s s' :
  (0 < max_attack_batches args)%Z ->
  evaluate model args loader s = (Ok tt, s') ->
  exists n s1 firsts lasts,
    Z.of_nat n
      = Z.min (Z.of_nat (List.length loader)) (max_attack_batches args) /\
    processed model args (firstn n loader) (start_loop s) s1 firsts lasts /\
    List.length firsts = n /\
    List.length lasts = n /\
    pbar_outer s' = n /\
    rendered s' = rendered s1 /\
    (max_attack_batches args = Z.of_nat (List.length loader) ->
     firstn n loader = loader) /\
    stdout s' =
      stdout s ++
        [("Accuracy before attack"%string,
          Num.div (total firsts) (Num.of_Z (Z.of_nat n)));
         ("Accuracy under attack"%string,
          Num.div (total lasts) (Num.of_Z (Z.of_nat n)));
         ("Accuracy decrease"%string,
          Num.sub (Num.div (total firsts) (Num.of_Z (Z.of_nat n)))
            (Num.div (total lasts) (Num.of_Z (Z.of_nat n))))].
Proof.
  intros Hcap H. unfold evaluate, max_batch_of in H.
  set (mb := Z.min (Z.of_nat (List.length loader)) (max_attack_batches args))
    in *.
  run_inv.
  match goal with
  | Hr : attack_batches _ _ _ _ _ _ = (Ok ?u, ?sx) |- _ =>
      destruct u; rename sx into s_loop; rename Hr into Hloop
  end.
  apply attack_batches_Ok in Hloop; [| lia].
  destruct Hloop as (firsts & lasts & Hp & Hb & Hu & Hbar & Hout).
  rewrite Z.sub_0_r in Hp.
  destruct (processed_length Hp) as [Hlf Hll].
  assert (Hmb : (0 <= mb <= Z.of_nat (List.length loader))%Z).
  { unfold mb. lia. }
  assert (Hlen : List.length (firstn (Z.to_nat mb) loader) = Z.to_nat mb).
  { apply firstn_length_le. lia. }
  assert (Hid : Z.of_nat (Z.to_nat mb) = mb) by (apply Z2Nat.id; lia).
  unfold report, print, mean_of in H. run_inv.
  destruct (mb =? 0)%Z; try discriminate.
  match goal with E : inr _ = inr _ |- _ => inversion E; clear E end.
  match goal with E : inr _ = inr _ |- _ => inversion E; clear E end.
  subst. simpl in *.
  exists (Z.to_nat mb), s_loop, firsts, lasts. unfold total.
  rewrite Hid, <- Hb, <- Hu, Hout. simpl.
  repeat split; try lia; try exact Hp.
  - intros Hall. apply firstn_all2. unfold mb. lia.
  - rewrite <- !app_assoc. reflexivity.
Qed.

(** *** The update of the image *)

(** C3.  A completed iteration replaces each entry [p] of the image by
    [p + epsilon / num_attack_iter * d / m], where [d] is the entry of the
    gradient left by the backward passes at the same place and [m] the
    largest absolute value in that gradient. *)
Theorem perturbation_step data s s' :
  attack_step model args data s = (Ok tt, s') ->
  exists g m,
    image_gradient model (imgs s) data = inr (Some g) /\
    tmax (tmap Num.abs g) = Some m /\
    forall c h w p d,
      pixel (imgs s) c h w = Some p ->
      pixel g c h w = Some d ->
      pixel (imgs s') c h w =
        Some (Num.add p
                (Num.div
                   (Num.mul
                      (Num.div (epsilon args) (Num.of_Z (num_attack_iter args)))
                      d)
                   m)).
Proof.
  intros H. apply attack_step_Ok in H.
  destruct H as (acc & g & x' & _ & Hg & Hp & ->).
  unfold perturb in Hp. destruct g as [g |]; [| discriminate Hp].
  destruct (tmax (tmap Num.abs g)) as [m |] eqn:Hm; [| discriminate Hp].
  inversion Hp; subst x'. exists g, m.
  split; [exact Hg |]. split; [exact Hm |].
  intros c h w p d Hpx Hd. simpl. unfold tadd.
  apply pixel_tzip; [exact Hpx |].
  rewrite !pixel_tmap, Hd. reflexivity.
Qed.

(** C2, as the code has it.  When the largest absolute value of the
    gradient is zero, line 278 raises nothing: every entry of the image it
    assigns is NaN, and the iteration completes when line 279 does. *)
Theorem zero_gradient_gives_nan data s g m :
  image_gradient model (imgs s) data = inr (Some g) ->
  tmax (tmap Num.abs g) = Some (Num.Fin m) ->
  m == 0 ->
  (exists x',
     perturb (epsilon args) (num_attack_iter args) (imgs s) (Some g) = inr x' /\
     all_entries (fun v => v = Num.NaN) x') /\
  (forall acc t,
     getitem (model (imgs s) data) "acc" = inr acc ->
     first_term (model (imgs s) data)
       (list_remove "acc" (map fst (model (imgs s) data))) = inr t ->
     exists s',
       attack_step model args data s = (Ok tt, s') /\
       all_entries (fun v => v = Num.NaN) (imgs s')).
Proof.
  intros Hg Hm Hm0.
  assert (Hx : exists x',
             perturb (epsilon args) (num_attack_iter args) (imgs s) (Some g)
               = inr x' /\
             all_entries (fun v => v = Num.NaN) x').
  { unfold perturb. rewrite Hm. eexists. split; [reflexivity |].
    rewrite tmap_tmap. unfold tadd.
    apply all_entries_tzip_r with (P := fun v => v = Num.NaN).
    - intros a b ->. destruct a; reflexivity.
    - apply all_entries_tmap with (P := bounded m).
      + intros v Hv.
        pose proof (@step_entry_zero_max
                      (Num.div (epsilon args) (Num.of_Z (num_attack_iter args)))
                      Num.zero v m Hv Hm0) as Hnan.
        destruct (Num.div (Num.mul _ v) (Num.Fin m)); try discriminate Hnan.
        reflexivity.
      + apply tmax_abs_bounded. exact Hm. }
  split; [exact Hx |].
  destruct Hx as (x' & Hp & Hnan). intros acc t Hacc Ht.
  unfold image_gradient in Hg. cbv zeta in Hg.
  eexists. unfold attack_step, bind, gets, lift, ret, modify.
  rewrite Hacc. cbv beta iota zeta. rewrite Hg. cbv beta iota zeta.
  rewrite Hp. cbv beta iota zeta. rewrite Ht. cbv beta iota zeta.
  split; [reflexivity | exact Hnan].
Qed.

(** *** The budget *)

Lemma regular_run_S k data s :
  regular_run model args (S k) data s = true ->
  exists g s',
    image_gradient model (imgs s) data = inr g /\
    regular_gradient (imgs s) g = true /\
    step data s = (Ok tt, s') /\
    regular_run model args k data s' = true.
Proof.
  simpl. intros H. apply andb_true_iff in H. destruct H as [Hg Hs].
  destruct (image_gradient model (imgs s) data) as [e | g]; [discriminate |].
  destruct (step data s) as [[[] | e] s']; [| discriminate].
  exists g, s'. repeat split; assumption.
Qed.

Lemma close_weaken D D' a b : D <= D' -> close D a b -> close D' a b.
Proof.
  intros Hle (qa & qb & Ha & Hb & H). exists qa, qb.
  repeat split; try assumption. eapply Qle_trans; eassumption.
Qed.

Lemma pointwise_impl (R R' : Num.t -> Num.t -> Prop) x y :
  (forall a b, R a b -> R' a b) -> pointwise R x y -> pointwise R' x y.
Proof.
  intros H. unfold pointwise.
  apply Forall2_impl. apply Forall2_impl. apply Forall2_impl. exact H.
Qed.

Lemma pointwise_diag (P : Num.t -> Prop) (R : Num.t -> Num.t -> Prop) x :
  (forall v, P v -> R v v) -> all_entries P x -> pointwise R x x.
Proof.
  intros H. unfold all_entries, pointwise.
  induction 1 as [| ch x Hch _ IHx]; constructor; [| exact IHx].
  induction Hch as [| row ch Hrow _ IHch]; constructor; [| exact IHch].
  induction Hrow as [| v row Hv _ IHrow]; constructor; [apply H, Hv | exact IHrow].
Qed.

Lemma inject_Z_nonzero n : (0 < n)%Z -> ~ inject_Z n == 0.
Proof. intros Hn H. unfold Qeq in H. simpl in H. lia. Qed.

(** One regular iteration moves every entry by at most
    [epsilon / num_attack_iter]. *)
Lemma regular_step_close e D x0 x g x' :
  0 <= e -> (0 < num_attack_iter args)%Z ->
  regular_gradient x g = true ->
  perturb (Num.Fin e) (num_attack_iter args) x g = inr x' ->
  pointwise (close D) x0 x ->
  pointwise (close (D + e / inject_Z (num_attack_iter args))) x0 x'.
Proof.
  intros He Hn Hreg Hp Hclose.
  destruct g as [g |]; [| discriminate Hreg].
  simpl in Hreg. apply andb_true_iff in Hreg. destruct Hreg as [Hshape Hmax].
  unfold perturb in Hp.
  destruct (tmax (tmap Num.abs g)) as [[m | | |] |] eqn:Hm;
    try discriminate Hmax.
  apply negb_true_iff, qzero_false in Hmax.
  pose proof (inject_Z_nonzero Hn) as Hnz.
  assert (Hstep : Num.div (Num.Fin e) (Num.of_Z (num_attack_iter args))
                  = Num.Fin (e / inject_Z (num_attack_iter args))).
  { unfold Num.of_Z. simpl. apply qzero_false in Hnz. rewrite Hnz. reflexivity. }
  rewrite Hstep in Hp. inversion Hp; subst x'. rewrite tmap_tmap. unfold tadd.
  apply pointwise_update
    with (R := close D) (S := fun _ _ => True) (P := bounded m).
  - intros a b d Hab Hd. apply step_entry_close; try assumption.
    apply Qle_shift_div_l.
    + unfold Qlt. simpl. lia.
    + lra.
  - exact Hclose.
  - apply same_shape_pointwise. exact Hshape.
  - apply tmax_abs_bounded. exact Hm.
Qed.

Lemma budget_invariant e data :
  epsilon args = Num.Fin e -> 0 <= e -> (0 < num_attack_iter args)%Z ->
  forall k x0 D s,
    pointwise (close D) x0 (imgs s) ->
    regular_run model args k data s = true ->
    exists s',
      iters k data s = (Ok tt, s') /\
      pointwise
        (close (D + inject_Z (Z.of_nat k) * (e / inject_Z (num_attack_iter args))))
        x0 (imgs s').
Proof.
  intros Heps He Hn. induction k as [| k IH]; intros x0 D s Hclose Hreg.
  - exists s. split; [reflexivity |].
    eapply pointwise_impl; [| exact Hclose].
    intros a b. apply close_weaken. simpl. unfold inject_Z. lra.
  - apply regular_run_S in Hreg.
    destruct Hreg as (g & s1 & Hg & Hgreg & Hstep & Hrun).
    pose proof Hstep as Hinv. apply attack_step_Ok in Hinv.
    destruct Hinv as (acc & g' & x' & _ & Hg' & Hp & Hs1).
    rewrite Hg in Hg'. inversion Hg'; subst g'. rewrite Heps in Hp.
    pose proof (@regular_step_close e D x0 (imgs s) g x' He Hn Hgreg Hp Hclose)
      as Hclose1.
    assert (Himgs : imgs s1 = x') by (rewrite Hs1; reflexivity).
    rewrite <- Himgs in Hclose1.
    destruct (IH x0 _ s1 Hclose1 Hrun) as (s' & Hit & Hfinal).
    exists s'. split.
    + simpl. rewrite (@bind_run _ _ _ _ _ _ _ Hstep). exact Hit.
    + eapply pointwise_impl; [| exact Hfinal].
      intros a b. apply close_weaken.
      set (d := e / inject_Z (num_attack_iter args)).
      assert (Heq : D + d + inject_Z (Z.of_nat k) * d
                    == D + inject_Z (Z.of_nat (S k)) * d).
      { rewrite Nat2Z.inj_succ. unfold Z.succ. rewrite inject_Z_plus.
        change (inject_Z 1) with 1. ring. }
      rewrite Heq. apply Qle_refl.
Qed.

Lemma Forall_zip_with (A B C : Type) (R : A -> B -> Prop) (P : C -> Prop)
    (f : A -> B -> C) l1 l2 :
  (forall a b, R a b -> P (f a b)) ->
  Forall2 R l1 l2 -> Forall P (zip_with f l1 l2).
Proof.
  intros H. induction 1; simpl; constructor; auto.
Qed.

(** Entries that all moved by at most [e] make a perturbation of max-norm
    at most [e]. *)
Lemma close_within_budget e x0 x' :
  tflat x0 <> [] -> pointwise (close e) x0 x' ->
  within_budget (Num.Fin e) x0 x'.
Proof.
  intros Hne Hclose. unfold within_budget, linf_dist, tmax.
  assert (Hflip : pointwise (fun b a => close e a b) x' x0).
  { unfold pointwise in *. apply Forall2_flip.
    eapply Forall2_impl; [| exact Hclose]. intros cx cy Hc.
    apply Forall2_flip. eapply Forall2_impl; [| exact Hc]. intros rx ry Hr.
    apply Forall2_flip. exact Hr. }
  rewrite tflat_tmap, (tflat_tzip Num.sub Hflip).
  pose proof (pointwise_flat Hflip) as Hflat.
  assert (Hall : Forall (fun v => exists q, v = Num.Fin q /\ q <= e)
                   (map Num.abs (zip_with Num.sub (tflat x') (tflat x0)))).
  { apply Forall_map. eapply Forall_zip_with; [| exact Hflat].
    intros b a (qa & qb & -> & -> & Hab). simpl. eexists. split; [reflexivity |].
    exact Hab. }
  destruct (map Num.abs (zip_with Num.sub (tflat x') (tflat x0)))
    as [| v l] eqn:Hl.
  - exfalso. inversion Hflat as [Hx' Hx0 | ? ? ? ? ? ? Hx' Hx0].
    + apply Hne. symmetry. exact Hx0.
    + rewrite <- Hx', <- Hx0 in Hl. discriminate Hl.
  - inversion Hall as [| ? ? Hv Hrest]; subst.
    destruct (fold_max_bound Hv Hrest) as (q & Hq & Hle).
    exists (Num.Fin q). split; [rewrite Hq; reflexivity |].
    apply Qle_bool_iff. exact Hle.
Qed.

Lemma regular_gradient_nonempty x g :
  regular_gradient x g = true -> tflat x <> [].
Proof.
  destruct g as [g |]; [| discriminate]. simpl. intros H.
  apply andb_true_iff in H. destruct H as [Hshape Hmax].
  destruct (tmax (tmap Num.abs g)) as [m |] eqn:Hm; [| discriminate Hmax].
  apply tmax_nonempty in Hm.
  apply same_shape_pointwise, pointwise_flat in Hshape.
  intros Hx. apply Hm. rewrite tflat_tmap.
  destruct (tflat g) as [| v l]; [reflexivity |].
  rewrite Hx in Hshape. inversion Hshape.
Qed.

(** C1, as the code has it.  With a finite budget [epsilon >= 0], a finite
    image, and at every iteration a gradient of the shape of the image
    whose largest absolute value is finite and not zero, the inner loop
    completes and moves no entry of the image by more than [epsilon]. *)
Theorem perturbation_within_budget data s e :
  epsilon args = Num.Fin e ->
  0 <= e ->
  (0 < num_attack_iter args)%Z ->
  all_finite (imgs s) = true ->
  regular_run model args (Z.to_nat (num_attack_iter args)) data s = true ->
  exists s',
    attack_iters model args (Z.to_nat (num_attack_iter args)) data s
      = (Ok tt, s') /\
    within_budget (epsilon args) (imgs s) (imgs s').
Proof.
  intros Heps He Hn Hfin Hreg.
  assert (Hstart : pointwise (close 0) (imgs s) (imgs s)).
  { apply pointwise_diag with (P := fun v => Num.is_finite v = true).
    - intros [q | | |] Hv; try discriminate Hv. exists q, q.
      repeat split. setoid_replace (q - q) with 0 by ring. discriminate.
    - apply all_entries_flat, Forall_forall. intros v Hv.
      unfold all_finite in Hfin. rewrite forallb_forall in Hfin.
      apply Hfin, Hv. }
  assert (Hne : tflat (imgs s) <> []).
  { destruct (Z.to_nat (num_attack_iter args)) as [| k] eqn:Hk; [lia |].
    apply regular_run_S in Hreg. destruct Hreg as (g & _ & _ & Hg & _).
    eapply regular_gradient_nonempty. exact Hg. }
  destruct (@budget_invariant e data Heps He Hn _ _ _ s Hstart Hreg)
    as (s' & Hit & Hclose).
  exists s'. split; [exact Hit |]. rewrite Heps.
  apply close_within_budget; [exact Hne |].
  eapply pointwise_impl; [| exact Hclose].
  intros a b. apply close_weaken.
  rewrite Z2Nat.id by lia.
  pose proof (inject_Z_nonzero Hn) as Hnz.
  assert (Heq : 0 + inject_Z (num_attack_iter args)
                      * (e / inject_Z (num_attack_iter args)) == e)
    by (field; exact Hnz).
  rewrite Heq. apply Qle_refl.
Qed.

(** *** A single iteration with no budget *)

(** The image and the trace that a completed batch ends with are those of
    its inner loop. *)
Lemma attack_batch_imgs data s s' :
  one_batch data s = (Ok tt, s') ->
  exists s1,
    iters (Z.to_nat (num_attack_iter args)) data (start_batch data s)
      = (Ok tt, s1) /\
    imgs s' = imgs s1 /\ acc_list s' = acc_list s1.
Proof.
  unfold attack_batch, visualize_img. intros H. run_inv.
  match goal with
  | Hit : attack_iters _ _ _ _ _ = (Ok ?u, ?sx) |- _ =>
      destruct u; exists sx; split; [exact Hit |]
  end.
  split; reflexivity.
Qed.

(** C9.  With [num_attack_iter = 1] and [epsilon = 0.0], the trace of a
    processed batch is the one accuracy that the model gives on the image
    of the batch, and the batch adds this accuracy to the total before
    attack and to the total under attack alike.  The image is left as it
    was, entry by entry, when it is finite and its gradient regular. *)
Theorem zero_budget_same_accuracy data s s' :
  num_attack_iter args = 1%Z ->
  Num.equiv (epsilon args) Num.zero ->
  attack_batch model args data s = (Ok tt, s') ->
  exists a,
    getitem (model (img data) data) "acc" = inr (Tensor a) /\
    acc_list s' = [Tensor a] /\
    acc_before_attack s' = Num.add (acc_before_attack s) (value a) /\
    acc_under_attack s' = Num.add (acc_under_attack s) (value a) /\
    (all_finite (img data) = true ->
     (forall g, image_gradient model (img data) data = inr g ->
                regular_gradient (img data) g = true) ->
     pointwise Num.equiv (img data) (imgs s')).
Proof.
  intros Hn Heps H.
  pose proof H as Hb. apply attack_batch_Ok in Hb.
  destruct Hb as (s1 & first & last & x & raw & Hit & Hfirst & Hlast
                  & Hpb & Hpu & _).
  apply attack_batch_imgs in H. destruct H as (s1' & Hit' & Himgs & Hacc).
  rewrite Hit in Hit'. inversion Hit'; subst s1'. clear Hit'.
  rewrite Hn in Hit. change (Z.to_nat 1) with 1%nat in Hit. simpl in Hit.
  run_inv.
  match goal with
  | Hs : attack_step _ _ _ _ = (Ok ?u, _) |- _ =>
      destruct u; apply attack_step_Ok in Hs;
      destruct Hs as (acc & g & x' & Hgacc & Hg & Hp & Hs1)
  end.
  simpl in Hgacc, Hg, Hp.
  match goal with Hs : ?sx = set_pbar_inner _ _ |- _ => subst sx end.
  simpl in Hfirst, Hlast, Himgs, Hacc.
  inversion Hfirst; subst first. inversion Hlast; subst last.
  destruct acc as [a | ts]; [| discriminate Hpb].
  inversion Hpb as [Hb0]. inversion Hpu as [Hu0].
  exists a. repeat split; try assumption.
  intros Hfin Hreg. specialize (Hreg g Hg). rewrite Himgs.
  destruct (epsilon args) as [e | | |] eqn:He; simpl in Heps;
    try contradiction.
  assert (He0 : 0 <= e) by (rewrite Heps; apply Qle_refl).
  assert (Hpos : (0 < num_attack_iter args)%Z) by lia.
  assert (Hstart : pointwise (close 0) (img data) (img data)).
  { apply pointwise_diag with (P := fun v => Num.is_finite v = true).
    - intros [q | | |] Hv; try discriminate Hv. exists q, q.
      repeat split. setoid_replace (q - q) with 0 by ring. discriminate.
    - apply all_entries_flat, Forall_forall. intros v Hv.
      unfold all_finite in Hfin. rewrite forallb_forall in Hfin.
      apply Hfin, Hv. }
  pose proof (@regular_step_close e 0 (img data) (img data) g x' He0 Hpos
                Hreg Hp Hstart) as Hclose.
  eapply pointwise_impl; [| exact Hclose].
  intros u v (qu & qv & -> & -> & Huv). simpl.
  rewrite Hn in Huv.
  assert (Hd : 0 + e / inject_Z 1 == 0).
  { rewrite Heps. reflexivity. }
  rewrite Hd in Huv. apply Qabs_Qle_condition in Huv. lra.
Qed.

End Properties.

(** ** Runs on the sample inputs *)

Module Runs.

Import Sample.

(** With a detector of zero gradient and the budget [epsilon = 1], two
    iterations leave an image at NaN distance from the original: the
    perturbation is not within the budget. *)
Lemma zero_gradient_exceeds_budget :
  exists s',
    attack_iters flat_detector args0 2 data0 batch_start = (Ok tt, s') /\
    linf_dist (imgs batch_start) (imgs s') = Some Num.NaN /\
    ~ within_budget (epsilon args0) (imgs batch_start) (imgs s').
Proof.
  eexists. split; [vm_compute; reflexivity |].
  split; [vm_compute; reflexivity |].
  intros (d & Hd & Hle). vm_compute in Hd. inversion Hd; subst d.
  discriminate Hle.
Qed.

Lemma perturbation_within_budget_witness :
  exists s',
    attack_iters detector args0 (Z.to_nat (num_attack_iter args0)) data0
      batch_start = (Ok tt, s') /\
    within_budget (epsilon args0) (imgs batch_start) (imgs s').
Proof.
  apply (@perturbation_within_budget detector args0 data0 batch_start 1).
  - reflexivity.
  - unfold Qle. simpl. lia.
  - simpl. lia.
  - reflexivity.
  - vm_compute. reflexivity.
Defined.

(** With a detector of zero gradient the largest absolute value of the
    gradient is zero at the first iteration, and yet [attack_detector]
    completes, with an image of NaN entries. *)
Lemma zero_gradient_is_not_fatal :
  image_gradient flat_detector (imgs batch_start) data0 = inr (Some zeros) /\
  tmax (tmap Num.abs zeros) = Some (fin 0) /\
  exists s',
    attack_detector loader_of flat_detector args0 [data0] state0
      = (Ok tt, s') /\
    forallb Num.is_nan (tflat (imgs s')) = true.
Proof.
  split; [vm_compute; reflexivity |].
  split; [vm_compute; reflexivity |].
  eexists. split; vm_compute; reflexivity.
Qed.

Lemma zero_gradient_gives_nan_witness :
  exists x',
    perturb (epsilon args0) (num_attack_iter args0) (imgs batch_start)
      (Some zeros) = inr x' /\
    all_entries (fun v => v = Num.NaN) x'.
Proof.
  destruct (@zero_gradient_gives_nan flat_detector args0 data0 batch_start
              zeros 0) as [H _].
  - vm_compute. reflexivity.
  - vm_compute. reflexivity.
  - reflexivity.
  - exact H.
Defined.

Lemma perturbation_step_witness :
  exists g m,
    image_gradient detector (imgs batch_start) data0 = inr (Some g) /\
    tmax (tmap Num.abs g) = Some m /\
    forall c h w p d,
      pixel (imgs batch_start) c h w = Some p ->
      pixel g c h w = Some d ->
      pixel (imgs (snd (attack_step detector args0 data0 batch_start))) c h w =
        Some (Num.add p
                (Num.div
                   (Num.mul
                      (Num.div (epsilon args0)
                         (Num.of_Z (num_attack_iter args0)))
                      d)
                   m)).
Proof.
  apply (@perturbation_step detector args0 data0 batch_start).
  vm_compute. reflexivity.
Defined.

(** With a detector whose accuracy moves with the image, two iterations
    and the budget [epsilon = 1], the last value of the trace, which the
    batch adds to the total under attack, is the accuracy 1 of the image
    after one update, while the attacked image, the one that is rendered,
    has accuracy 0: the last value is not the accuracy after the attack. *)
Lemma last_trace_value_is_not_post_attack :
  exists s',
    attack_batch sensitive args0 data0 (start_loop state0) = (Ok tt, s') /\
    acc_list s'
      = [Tensor (mkTerm (fin 1) None); Tensor (mkTerm (fin 1) None)] /\
    index_last (acc_list s') = inr (Tensor (mkTerm (fin 1) None)) /\
    acc_under_attack s' = Num.add Num.zero (fin 1) /\
    getitem (sensitive (imgs s') data0) "acc"
      = inr (Tensor (mkTerm (fin 0) None)) /\
    ~ Num.equiv (fin 1) (fin 0).
Proof.
  eexists. split; [vm_compute; reflexivity |].
  split; [vm_compute; reflexivity |].
  split; [vm_compute; reflexivity |].
  split; [vm_compute; reflexivity |].
  split; [vm_compute; reflexivity |].
  simpl. intros H. discriminate H.
Qed.

Lemma acc_trace_length_witness :
  Z.of_nat
    (List.length
       (acc_list (snd (attack_batch sensitive args0 data0 (start_loop state0)))))
  = num_attack_iter args0 /\
  exists first last s_last,
    index
      (acc_list (snd (attack_batch sensitive args0 data0 (start_loop state0))))
      0 = inr first /\
    index_last
      (acc_list (snd (attack_batch sensitive args0 data0 (start_loop state0))))
      = inr last /\
    getitem (sensitive (img data0) data0) "acc" = inr first /\
    attack_iters sensitive args0 (Z.to_nat (num_attack_iter args0) - 1) data0
      (start_batch data0 (start_loop state0)) = (Ok tt, s_last) /\
    getitem (sensitive (imgs s_last) data0) "acc" = inr last /\
    plus_entry (acc_before_attack (start_loop state0)) first
      = inr (acc_before_attack
               (snd (attack_batch sensitive args0 data0 (start_loop state0)))) /\
    plus_entry (acc_under_attack (start_loop state0)) last
      = inr (acc_under_attack
               (snd (attack_batch sensitive args0 data0 (start_loop state0)))).
Proof.
  apply (@acc_trace_length sensitive args0 data0 (start_loop state0)).
  vm_compute. reflexivity.
Defined.

(** A cap of one batch on a loader of two, then a cap of two on the same
    loader. *)
Lemma mean_over_processed_batches_witness :
  (exists n s1 firsts lasts,
     Z.of_nat n = Z.min 2 1 /\
     processed sensitive args_cap1 (firstn n [data0; data1])
       (start_loop state0) s1 firsts lasts /\
     List.length firsts = n /\
     List.length lasts = n /\
     pbar_outer (snd (evaluate sensitive args_cap1 [data0; data1] state0))
       = n /\
     rendered (snd (evaluate sensitive args_cap1 [data0; data1] state0))
       = rendered s1 /\
     (1%Z = 2%Z -> firstn n [data0; data1] = [data0; data1]) /\
     stdout (snd (evaluate sensitive args_cap1 [data0; data1] state0)) =
       (stdout state0 ++
          [("Accuracy before attack"%string,
            Num.div (total firsts) (Num.of_Z (Z.of_nat n)));
           ("Accuracy under attack"%string,
            Num.div (total lasts) (Num.of_Z (Z.of_nat n)));
           ("Accuracy decrease"%string,
            Num.sub (Num.div (total firsts) (Num.of_Z (Z.of_nat n)))
              (Num.div (total lasts) (Num.of_Z (Z.of_nat n))))])%list) /\
  (exists n s1 firsts lasts,
     Z.of_nat n = Z.min 2 2 /\
     processed sensitive args_cap2 (firstn n [data0; data1])
       (start_loop state0) s1 firsts lasts /\
     List.length firsts = n /\
     List.length lasts = n /\
     pbar_outer (snd (evaluate sensitive args_cap2 [data0; data1] state0))
       = n /\
     rendered (snd (evaluate sensitive args_cap2 [data0; data1] state0))
       = rendered s1 /\
     (2%Z = 2%Z -> firstn n [data0; data1] = [data0; data1]) /\
     stdout (snd (evaluate sensitive args_cap2 [data0; data1] state0)) =
       (stdout state0 ++
          [("Accuracy before attack"%string,
            Num.div (total firsts) (Num.of_Z (Z.of_nat n)));
           ("Accuracy under attack"%string,
            Num.div (total lasts) (Num.of_Z (Z.of_nat n)));
           ("Accuracy decrease"%string,
            Num.sub (Num.div (total firsts) (Num.of_Z (Z.of_nat n)))
              (Num.div (total lasts) (Num.of_Z (Z.of_nat n))))])%list).
Proof.
  split.
  - apply (@mean_over_processed_batches sensitive args_cap1 [data0; data1]
             state0).
    + simpl. lia.
    + vm_compute. reflexivity.
  - apply (@mean_over_processed_batches sensitive args_cap2 [data0; data1]
             state0).
    + simpl. lia.
    + vm_compute. reflexivity.
Defined.

Lemma missing_acc_is_fatal_witness :
  attack_detector loader_of single_stage args0 [data0] state0 =
    (Raise (KeyError "acc"), start_batch data0 (start_loop after_setup)).
Proof.
  apply (@missing_acc_is_fatal (list batch) loader_of single_stage args0
           [data0] state0 [data0] after_setup [] data0 []
           (start_loop after_setup) 0
           (start_batch data0 (start_loop after_setup))).
  - vm_compute. reflexivity.
  - reflexivity.
  - simpl. lia.
  - reflexivity.
  - simpl. lia.
  - reflexivity.
  - reflexivity.
Defined.

Lemma clear_output_empties_save_path_witness :
  exists loader s',
    setup loader_of args0 [data0] state0 = (Ok loader, s') /\
    save_dir s' = [].
Proof.
  destruct (@clear_output_empties_save_path (list batch) loader_of args0
              [data0] state0) as [H _].
  destruct (H eq_refl) as [Hempty Hruns].
  destruct Hruns as (loader & s' & Hs).
  - repeat constructor.
  - exists loader, s'. split; [exact Hs | apply (Hempty loader s' Hs)].
Defined.

Lemma denorm_inverts_normalize_witness :
  exists x' u',
    denorm_loop (std data0) (mean data0) [0; 1; 2]%nat img0
      (normalize_image (std data0) (mean data0) img0) = inr (x', u') /\
    pointwise Num.equiv u' img0.
Proof.
  apply (@denorm_inverts_normalize (std data0) (mean data0) img0 img0);
    reflexivity.
Defined.

Lemma zero_budget_same_accuracy_witness :
  exists a,
    getitem (sensitive (img data0) data0) "acc" = inr (Tensor a) /\
    acc_list (snd (attack_batch sensitive args1 data0 (start_loop state0)))
      = [Tensor a] /\
    acc_before_attack
      (snd (attack_batch sensitive args1 data0 (start_loop state0)))
      = Num.add (acc_before_attack (start_loop state0)) (value a) /\
    acc_under_attack
      (snd (attack_batch sensitive args1 data0 (start_loop state0)))
      = Num.add (acc_under_attack (start_loop state0)) (value a) /\
    pointwise Num.equiv (img data0)
      (imgs (snd (attack_batch sensitive args1 data0 (start_loop state0)))).
Proof.
  destruct (@zero_budget_same_accuracy sensitive args1 data0
              (start_loop state0)
              (snd (attack_batch sensitive args1 data0 (start_loop state0))))
    as (a & Hacc & Htrace & Hb & Hu & Himg).
  - reflexivity.
  - simpl. reflexivity.
  - vm_compute. reflexivity.
  - exists a. repeat split; try assumption.
    apply Himg; [reflexivity |].
    intros g Hg. vm_compute in Hg. inversion Hg. reflexivity.
Defined.

End Runs.

(** ** Edge cases of the attack loop *)

Section EdgeCases.

Variable model : image -> batch -> result.
Variable args : arguments.

(** X1.  With [num_attack_iter <= 0] the inner loop does not run, the trace
    stays empty and [acc_list[0]] raises: the run ends at the first batch,
    before anything is rendered or printed. *)
Theorem no_iteration_is_an_index_error data loader s :
  (num_attack_iter args <= 0)%Z ->
  (0 < max_attack_batches args)%Z ->
  evaluate model args (data :: loader) s
    = (Raise IndexError, start_batch data (start_loop s)).
Proof.
  intros Hn Hcap. unfold evaluate.
  rewrite (@bind_run _ _ (modify start_loop) _ s tt (start_loop s) eq_refl).
  apply bind_Raise. simpl attack_batches.
  assert (Hmb : (max_batch_of args (data :: loader) <=? 0)%Z = false).
  { apply Z.leb_gt. unfold max_batch_of. simpl List.length. lia. }
  rewrite Hmb. apply bind_Raise. unfold attack_batch.
  rewrite (@bind_run _ _ (modify (start_batch data)) _ (start_loop s) tt
             (start_batch data (start_loop s)) eq_refl).
  replace (Z.to_nat (num_attack_iter args)) with 0%nat by lia.
  reflexivity.
Qed.

(** X2.  With no batch to process ([max_batch = 0]: an empty loader, or a cap of
    zero) the means are [0 / 0] on Python ints: the run ends with
    ZeroDivisionError and prints nothing. *)
Theorem nothing_to_process_divides_by_zero loader s :
  (loader = [] /\ (0 <= max_attack_batches args)%Z) \/
  max_attack_batches args = 0%Z ->
  evaluate model args loader s = (Raise ZeroDivisionError, start_loop s).
Proof.
  intros H.
  assert (Hmb : max_batch_of args loader = 0%Z).
  { unfold max_batch_of. destruct H as [[-> Hcap] | Hcap]; simpl; lia. }
  unfold evaluate. rewrite Hmb.
  rewrite (@bind_run _ _ (modify start_loop) _ s tt (start_loop s) eq_refl).
  assert (Hloop : attack_batches model args 0 0 loader (start_loop s)
                  = (Ok tt, start_loop s)).
  { destruct loader; reflexivity. }
  rewrite (@bind_run _ _ _ _ _ _ _ Hloop). reflexivity.
Qed.

(** X3.  A negative cap processes no batch and does not fail: the run prints
    zero for both means, [0 / max_batch] with a negative [max_batch]. *)
Theorem negative_cap_reports_zero loader s :
  (max_attack_batches args < 0)%Z ->
  exists s' v,
    evaluate model args loader s = (Ok tt, s') /\
    Num.equiv v Num.zero /\
    rendered s' = rendered s /\
    pbar_outer s' = 0%nat /\
    stdout s' =
      stdout s ++
        [("Accuracy before attack"%string, v);
         ("Accuracy under attack"%string, v);
         ("Accuracy decrease"%string, Num.sub v v)].
Proof.
  intros Hcap.
  assert (Hmb : (max_batch_of args loader < 0)%Z).
  { unfold max_batch_of. lia. }
  set (mb := max_batch_of args loader) in *.
  assert (Hloop : attack_batches model args 0 mb loader (start_loop s)
                  = (Ok tt, start_loop s)).
  { destruct loader as [| data loader]; [reflexivity |]. simpl.
    replace (mb <=? 0)%Z with true by (symmetry; apply Z.leb_le; lia).
    reflexivity. }
  assert (Hz : (mb =? 0)%Z = false) by (apply Z.eqb_neq; lia).
  exists (set_stdout
            (stdout s ++
               [("Accuracy before attack"%string,
                 Num.div Num.zero (Num.of_Z mb));
                ("Accuracy under attack"%string,
                 Num.div Num.zero (Num.of_Z mb));
                ("Accuracy decrease"%string,
                 Num.sub (Num.div Num.zero (Num.of_Z mb))
                   (Num.div Num.zero (Num.of_Z mb)))])
            (set_acc_under_attack (Num.div Num.zero (Num.of_Z mb))
               (set_acc_before_attack (Num.div Num.zero (Num.of_Z mb))
                  (start_loop s)))),
         (Num.div Num.zero (Num.of_Z mb)).
  split; [| split; [| split; [| split]]]; try reflexivity.
  - unfold evaluate. fold mb.
    rewrite (@bind_run _ _ (modify start_loop) _ s tt (start_loop s) eq_refl).
    rewrite (@bind_run _ _ _ _ _ _ _ Hloop).
    unfold report, print, mean_of, bind, gets, lift, modify, ret.
    rewrite Hz. simpl. rewrite <- !app_assoc. reflexivity.
  - unfold Num.div, Num.zero, Num.of_Z.
    assert (Hq : Num.qzero (inject_Z mb) = false).
    { apply qzero_false. intros H. unfold Qeq in H. simpl in H. lia. }
    rewrite Hq. simpl. field. intros H. unfold Qeq in H. simpl in H. lia.
Qed.

(** X4.  When no loss term has the image on its graph, [imgs.grad] is still
    [None] at line 278 and the product raises TypeError; the accuracy of
    the iteration is already in the trace and the image is untouched. *)
Theorem no_gradient_is_a_type_error data s acc :
  getitem (model (imgs s) data) "acc" = inr acc ->
  image_gradient model (imgs s) data = inr None ->
  attack_step model args data s
    = (Raise TypeError, set_acc_list (acc_list s ++ [acc]) s).
Proof.
  intros Hacc Hg. unfold image_gradient in Hg. cbv zeta in Hg.
  unfold attack_step, bind, gets, lift, ret, raise, modify.
  rewrite Hacc. cbv beta iota zeta. rewrite Hg. reflexivity.
Qed.

Lemma attack_batches_firstn loader k i mb s :
  (0 <= i)%Z ->
  (Z.to_nat (mb - i) <= k)%nat ->
  attack_batches model args i mb (firstn k loader) s
    = attack_batches model args i mb loader s.
Proof.
  revert k i s. induction loader as [| data loader IH]; intros k i s Hi Hk.
  - rewrite firstn_nil. reflexivity.
  - destruct (mb <=? i)%Z eqn:Hle.
    + destruct k as [| k]; simpl; rewrite Hle; reflexivity.
    + pose proof Hle as Hlt. apply Z.leb_gt in Hlt.
      destruct k as [| k]; [lia |].
      simpl. rewrite Hle. unfold bind.
      destruct (attack_batch model args data s) as [[[] | e] s1];
        [| reflexivity].
      apply IH; lia.
Qed.

(** X5.  The batches after the batch number [max_batch], the one that the
    loop takes from the loader just before it leaves, have no part in the
    run: it is the run on the loader cut after this batch. *)
Theorem batches_after_the_break_are_ignored loader s :
  evaluate model args
    (firstn (S (Z.to_nat (max_batch_of args loader))) loader) s
  = evaluate model args loader s.
Proof.
  assert (Hmb : max_batch_of args
                  (firstn (S (Z.to_nat (max_batch_of args loader))) loader)
                = max_batch_of args loader).
  { unfold max_batch_of. rewrite length_firstn. lia. }
  unfold evaluate. rewrite Hmb.
  rewrite !(@bind_run _ _ (modify start_loop) _ s tt (start_loop s) eq_refl).
  unfold bind.
  rewrite (@attack_batches_firstn loader
             (S (Z.to_nat (max_batch_of args loader))) 0
             (max_batch_of args loader) (start_loop s) (Z.le_refl 0))
    by (rewrite Z.sub_0_r; lia).
  reflexivity.
Qed.

Lemma attack_batches_rendered loader i mb s s' :
  (0 <= i)%Z ->
  attack_batches model args i mb loader s = (Ok tt, s') ->
  map fst (rendered s') =
    map fst (rendered s)
      ++ flat_map (rendered_paths args) (firstn (Z.to_nat (mb - i)) loader).
Proof.
  revert i s. induction loader as [| data loader IH]; simpl; intros i s Hi H.
  - run_inv. rewrite firstn_nil. simpl. symmetry. apply app_nil_r.
  - destruct (mb <=? i)%Z eqn:Hle.
    + apply Z.leb_le in Hle. run_inv.
      replace (Z.to_nat (mb - i)) with 0%nat by lia. simpl.
      symmetry. apply app_nil_r.
    + apply Z.leb_gt in Hle. run_inv.
      match goal with
      | Hr : attack_batch _ _ _ _ = (Ok ?u, ?sx) |- _ =>
          destruct u; apply attack_batch_Ok in Hr;
          destruct Hr as (s1 & first & last & x & raw & _ & _ & _ & _ & _ & _
                          & Hrend & _)
      end.
      apply IH in H; [| lia]. rewrite H, Hrend.
      replace (Z.to_nat (mb - i)) with (S (Z.to_nat (mb - (i + 1)))) by lia.
      simpl. rewrite map_app. simpl. rewrite <- app_assoc. reflexivity.
Qed.

(** X6.  A completed run has rendered, for each of the first [max_batch]
    batches and in their order, the original image and then the attacked
    one, and nothing else. *)
Theorem rendered_files_of_a_run loader s s' :
  evaluate model args loader s = (Ok tt, s') ->
  map fst (rendered s') =
    map fst (rendered s)
      ++ flat_map (rendered_paths args)
           (firstn (Z.to_nat (max_batch_of args loader)) loader).
Proof.
  intros H. unfold evaluate in H. run_inv.
  match goal with
  | Hr : attack_batches _ _ _ _ _ _ = (Ok ?u, ?sx) |- _ =>
      destruct u; apply attack_batches_rendered in Hr; [| lia];
      rename Hr into Hloop; rename sx into s_loop
  end.
  rewrite Z.sub_0_r in Hloop. simpl in Hloop. rewrite <- Hloop.
  unfold report, print in H. run_inv. reflexivity.
Qed.

(** *** Images that cannot be denormalized *)

Lemma length_setitem (A : Type) (l : list A) k a :
  List.length (setitem l k a) = List.length l.
Proof.
  revert k. induction l as [| b l IH]; intros [| k]; simpl; auto.
Qed.

Lemma index_Ok (A : Type) (l : list A) k a :
  index l k = inr a -> (k < List.length l)%nat.
Proof.
  unfold index. destruct (nth_error l k) eqn:H; [| discriminate].
  intros _. apply nth_error_Some. congruence.
Qed.

Lemma denorm_channel_Ok stds means x k x' :
  denorm_channel stds means x k = inr x' ->
  (k < List.length x)%nat /\ (k < List.length stds)%nat /\
  (k < List.length means)%nat /\ List.length x' = List.length x.
Proof.
  unfold denorm_channel.
  destruct (index x k) as [e | ch] eqn:Hx; [discriminate |].
  destruct (index stds k) as [e | sd] eqn:Hs; [discriminate |].
  destruct (index means k) as [e | mn] eqn:Hm; [discriminate |].
  intros H. inversion H.
  repeat split; try (eapply index_Ok; eassumption). apply length_setitem.
Qed.

Lemma denorm_loop_Ok stds means x raw r :
  denorm_loop stds means [0; 1; 2]%nat x raw = inr r ->
  (3 <= List.length x)%nat /\ (3 <= List.length raw)%nat /\
  (3 <= List.length stds)%nat /\ (3 <= List.length means)%nat.
Proof.
  simpl.
  destruct (denorm_channel stds means x 0) as [e | x1] eqn:Hx0; [discriminate |].
  destruct (denorm_channel stds means raw 0) as [e | r1] eqn:Hr0; [discriminate |].
  destruct (denorm_channel stds means x1 1) as [e | x2] eqn:Hx1; [discriminate |].
  destruct (denorm_channel stds means r1 1) as [e | r2] eqn:Hr1; [discriminate |].
  destruct (denorm_channel stds means x2 2) as [e | x3] eqn:Hx2; [discriminate |].
  destruct (denorm_channel stds means r2 2) as [e | r3] eqn:Hr2; [discriminate |].
  intros _.
  apply denorm_channel_Ok in Hx0, Hr0, Hx1, Hr1, Hx2, Hr2. lia.
Qed.

Lemma never_raises_modify (f : state -> state) : never_raises (modify f).
Proof. intros s e s' H. discriminate H. Qed.

Lemma never_raises_bind (A B : Type) (m : M A) (k : A -> M B) :
  never_raises m -> (forall a, never_raises (k a)) -> never_raises (bind m k).
Proof.
  intros Hm Hk s e s' H. unfold bind in H.
  destruct (m s) as [[a | e1] s1] eqn:Hms.
  - exact (Hk a s1 e s' H).
  - exact (Hm s e1 s1 Hms).
Qed.

(** A raise of [m ;; k] leaves [f] as it was when [m] leaves it as it was
    and [k] does so when it raises. *)
Lemma raise_frame_bind (A B C : Type) (f : state -> A) (m : M B)
    (k : B -> M C) s e s' :
  preserves f m ->
  (forall b s1 s2, k b s1 = (Raise e, s2) -> f s2 = f s1) ->
  bind m k s = (Raise e, s') -> f s' = f s.
Proof.
  intros Hm Hk H. unfold bind in H. specialize (Hm s).
  destruct (m s) as [[b | e1] s1]; simpl in Hm.
  - rewrite <- Hm. exact (Hk b s1 s' H).
  - inversion H; subst. exact Hm.
Qed.

Lemma rendering_never_raises raw x p1 p2 :
  never_raises
    (visualize_img raw p1 ;;
     visualize_img x p2 ;;
     modify (fun s => set_pbar_outer (S (pbar_outer s)) s)).
Proof.
  unfold visualize_img.
  apply never_raises_bind; [apply never_raises_modify | intros].
  apply never_raises_bind; [apply never_raises_modify | intros].
  apply never_raises_modify.
Qed.

Lemma attack_batch_Raise_rendered data s e s' :
  attack_batch model args data s = (Raise e, s') -> rendered s' = rendered s.
Proof.
  unfold attack_batch.
  repeat (first
    [ apply raise_frame_bind;
      [ first [ apply attack_iters_frame; reflexivity | solve [frame] ]
      | intros ? ? ? ]
    | idtac ]).
  intros H. exfalso. eapply rendering_never_raises. exact H.
Qed.

(** X7.  A batch whose image has fewer than three channels, or whose [std] or
    [mean] has fewer than three entries, is never processed: the loop of
    lines 286-288 indexes channels 0 to 2, so the batch raises, and no file
    is rendered for it. *)
Theorem three_channels_are_required data s :
  (List.length (img data) < 3)%nat \/ (List.length (std data) < 3)%nat \/
  (List.length (mean data) < 3)%nat ->
  fst (attack_batch model args data s) <> Ok tt /\
  rendered (snd (attack_batch model args data s)) = rendered s.
Proof.
  intros Hlen.
  destruct (attack_batch model args data s) as [[[] | e] s'] eqn:H; simpl.
  - exfalso. unfold attack_batch in H. run_inv.
    match goal with
    | E : denorm_loop _ _ _ _ _ = inr _ |- _ => apply denorm_loop_Ok in E
    end.
    lia.
  - split; [discriminate |]. eapply attack_batch_Raise_rendered. exact H.
Qed.

(** *** A zero budget *)

(** X8.  With [epsilon = 0.0] and, at every iteration, a gradient of the shape
    of the image with a finite non-zero maximum, the inner loop completes
    and leaves every entry of a finite image at its value. *)
Theorem zero_budget_keeps_the_image data s e :
  epsilon args = Num.Fin e ->
  e == 0 ->
  (0 < num_attack_iter args)%Z ->
  all_finite (imgs s) = true ->
  regular_run model args (Z.to_nat (num_attack_iter args)) data s = true ->
  exists s',
    attack_iters model args (Z.to_nat (num_attack_iter args)) data s
      = (Ok tt, s') /\
    pointwise Num.equiv (imgs s) (imgs s').
Proof.
  intros Heps He Hn Hfin Hreg.
  assert (Hstart : pointwise (close 0) (imgs s) (imgs s)).
  { apply pointwise_diag with (P := fun v => Num.is_finite v = true).
    - intros [q | | |] Hv; try discriminate Hv. exists q, q.
      repeat split. setoid_replace (q - q) with 0 by ring. discriminate.
    - apply all_entries_flat, Forall_forall. intros v Hv.
      unfold all_finite in Hfin. rewrite forallb_forall in Hfin.
      apply Hfin, Hv. }
  assert (He0 : 0 <= e) by (rewrite He; apply Qle_refl).
  destruct (@budget_invariant model args e data Heps He0 Hn _ _ _ s
              Hstart Hreg) as (s' & Hit & Hclose).
  exists s'. split; [exact Hit |].
  eapply pointwise_impl; [| exact Hclose].
  intros a b (qa & qb & -> & -> & Hab). simpl.
  pose proof (inject_Z_nonzero Hn) as Hnz.
  assert (Hd : 0 + inject_Z (Z.of_nat (Z.to_nat (num_attack_iter args)))
                   * (e / inject_Z (num_attack_iter args)) == 0).
  { rewrite He. field. exact Hnz. }
  rewrite Hd in Hab. apply Qabs_Qle_condition in Hab. lra.
Qed.

(** *** The gradient of an iteration *)

Lemma getitem_NoDup (res : result) k v :
  NoDup (map fst res) -> In (k, v) res -> getitem res k = inr v.
Proof.
  induction res as [| [k0 v0] res IH]; simpl; intros Hnd Hin; [contradiction |].
  inversion Hnd as [| ? ? Hnotin Hnd']; subst.
  destruct Hin as [Heq | Hin].
  - inversion Heq; subst. rewrite String.eqb_refl. reflexivity.
  - destruct (String.eqb k0 k) eqn:E.
    + apply String.eqb_eq in E. subst k0. exfalso. apply Hnotin.
      change k with (fst (k, v)). apply in_map. exact Hin.
    + apply IH; assumption.
Qed.

Lemma backward_keys_entries (res sub : result) g :
  (forall k v, In (k, v) sub -> getitem res k = inr v) ->
  backward_keys res (map fst sub) g =
    inr (fold_left backward
           (flat_map (fun kv => match snd kv with
                                | Tensor t => [t]
                                | TList ts => ts
                                end) sub) g).
Proof.
  revert g. induction sub as [| [k v] sub IH]; simpl; intros g H.
  - reflexivity.
  - rewrite (H k v (or_introl eq_refl)).
    destruct v as [t | ts]; simpl.
    + apply IH. intros k' v' Hin. apply H. right. exact Hin.
    + rewrite fold_left_app. apply IH. intros k' v' Hin. apply H. right.
      exact Hin.
Qed.

Lemma list_remove_keys (res : result) key :
  list_remove key (map fst res) = map fst (remove_entry key res).
Proof.
  induction res as [| [k v] res IH]; simpl; [reflexivity |].
  destruct (String.eqb k key); [reflexivity |]. simpl. rewrite IH. reflexivity.
Qed.

Lemma remove_entry_In key (res : result) kv :
  In kv (remove_entry key res) -> In kv res.
Proof.
  induction res as [| kv0 res IH]; simpl; [trivial |].
  destruct (String.eqb (fst kv0) key); [intros H; right; exact H |].
  intros [H | H]; [left; exact H | right; apply IH, H].
Qed.

Lemma loss_terms_remove_acc (res : result) :
  NoDup (map fst res) ->
  flat_map (fun kv => match snd kv with
                      | Tensor t => [t]
                      | TList ts => ts
                      end) (remove_entry "acc" res)
  = loss_terms res.
Proof.
  unfold loss_terms.
  induction res as [| [k0 v0] res IH]; simpl; intros Hnd; [reflexivity |].
  inversion Hnd as [| ? ? Hnotin Hnd']; subst.
  destruct (String.eqb k0 "acc") eqn:E; simpl.
  - apply String.eqb_eq in E. subst k0. clear IH Hnd Hnd'.
    induction res as [| [k1 v1] res IH]; simpl; [reflexivity |].
    destruct (String.eqb k1 "acc") eqn:E1.
    + apply String.eqb_eq in E1. subst k1. exfalso. apply Hnotin. left.
      reflexivity.
    + f_equal. apply IH. intros Hin. apply Hnotin. right. exact Hin.
  - f_equal. apply IH. exact Hnd'.
Qed.

(** X9.  The keys of a dict being distinct, the backward passes of lines 272-277
    accumulate the gradient of every loss term of every entry other than
    ['acc'], in dict order; the ['acc'] entry is never back-propagated. *)
Theorem gradient_of_all_loss_terms x data :
  NoDup (map fst (model x data)) ->
  image_gradient model x data
    = inr (fold_left backward (loss_terms (model x data)) None).
Proof.
  unfold image_gradient. cbv zeta. generalize (model x data). intros res Hnd.
  rewrite list_remove_keys.
  rewrite backward_keys_entries.
  - rewrite loss_terms_remove_acc by exact Hnd. reflexivity.
  - intros k v Hin. apply getitem_NoDup; [exact Hnd |].
    eapply remove_entry_In. exact Hin.
Qed.

(** *** A sub-directory in the output directory *)

Lemma filter_other_names (d : list (string * kind)) name :
  ~ In name (map fst d) ->
  filter (fun e => negb (String.eqb (fst e) name)) d = d.
Proof.
  induction d as [| e d IH]; simpl; intros H; [reflexivity |].
  destruct (String.eqb (fst e) name) eqn:E.
  - apply String.eqb_eq in E. exfalso. apply H. left. exact E.
  - simpl. f_equal. apply IH. intros Hin. apply H. right. exact Hin.
Qed.

Lemma remove_all_stops_at_directory pre name post s :
  save_dir s = pre ++ (name, Dir) :: post ->
  Forall (fun e => snd e = File) pre ->
  NoDup (map fst (save_dir s)) ->
  remove_all (map fst (pre ++ (name, Dir) :: post)) s
    = (Raise (IsADirectoryError name), set_save_dir ((name, Dir) :: post) s).
Proof.
  revert s. induction pre as [| [f k] pre IH]; intros s Hdir Hfiles Hnd.
  - simpl. apply bind_Raise. unfold os_remove, bind, gets.
    rewrite Hdir. simpl. rewrite String.eqb_refl. unfold raise.
    f_equal. destruct s; simpl in *. subst. reflexivity.
  - inversion Hfiles as [| ? ? Hk Hfiles']; subst. simpl in Hk. subst k.
    rewrite Hdir in Hnd. simpl in Hnd.
    inversion Hnd as [| ? ? Hnotin Hnd']; subst.
    set (d := pre ++ (name, Dir) :: post) in *.
    assert (Hrm : os_remove f s = (Ok tt, set_save_dir d s)).
    { unfold os_remove, bind, gets. rewrite Hdir. simpl.
      rewrite String.eqb_refl. simpl.
      rewrite filter_other_names by exact Hnotin. reflexivity. }
    change (remove_all (map fst (((f, File) :: pre) ++ (name, Dir) :: post)) s)
      with (bind (os_remove f) (fun _ => remove_all (map fst d)) s).
    rewrite (@bind_run _ _ _ _ _ _ _ Hrm).
    exact (IH (set_save_dir d s) eq_refl Hfiles' Hnd').
Qed.

End EdgeCases.

Section Clearing.

Variable Dataset : Type.
Variable build_dataloader : Dataset -> Z -> Z -> Z -> list batch.
Variable model : image -> batch -> result.
Variable args : arguments.

(** X10.  With [clear_output] set and a sub-directory in [save_path], [os.remove]
    raises on it: the entries listed before it are gone, the others stay,
    and [attack_detector] ends there, before the loop. *)
Theorem subdirectory_aborts_the_run ds s pre name post :
  clear_output args = true ->
  save_dir s = pre ++ (name, Dir) :: post ->
  Forall (fun e => snd e = File) pre ->
  NoDup (map fst (save_dir s)) ->
  attack_detector build_dataloader model args ds s
    = (Raise (IsADirectoryError name),
       set_save_dir ((name, Dir) :: post)
         (set_cfg (mkConfig 0 1 (gpus (cfg s))) s)).
Proof.
  intros Hclear Hdir Hfiles Hnd. unfold attack_detector.
  apply bind_Raise. rewrite setup_run. cbv zeta. rewrite Hclear.
  rewrite Hdir at 1.
  rewrite (@remove_all_stops_at_directory pre name post
             (set_cfg (mkConfig 0 1 (gpus (cfg s))) s) Hdir Hfiles Hnd).
  reflexivity.
Qed.

End Clearing.

(** ** Display order and layout *)

Lemma transpose_channels_at c0 c1 c2 h w p0 p1 p2 :
  pixel [c0; c1; c2] 0 h w = Some p0 ->
  pixel [c0; c1; c2] 1 h w = Some p1 ->
  pixel [c0; c1; c2] 2 h w = Some p2 ->
  channels_at (transpose_1_2_0 [c0; c1; c2]) h w = Some [p0; p1; p2].
Proof.
  unfold pixel, channels_at. simpl.
  destruct (nth_error c0 h) as [r0 |] eqn:H0; [| discriminate].
  destruct (nth_error c1 h) as [r1 |] eqn:H1; [| discriminate].
  destruct (nth_error c2 h) as [r2 |] eqn:H2; [| discriminate].
  intros Hp0 Hp1 Hp2.
  assert (Hm : nth_error (map (map (fun p => [p])) c0) h
               = Some (map (fun p => [p]) r0)).
  { rewrite nth_error_map, H0. reflexivity. }
  rewrite (nth_error_zip_with _ _ _ _
             (nth_error_zip_with _ _ _ _ Hm H1) H2).
  assert (Hq : nth_error (map (fun p => [p]) r0) w = Some [p0]).
  { rewrite nth_error_map, Hp0. reflexivity. }
  rewrite (nth_error_zip_with _ _ _ _
             (nth_error_zip_with _ _ _ _ Hq Hp1) Hp2).
  reflexivity.
Qed.

(** What the loop of lines 286-288, the reordering and the transposition
    make of an image, at one place. *)
Lemma display_channels stds means x raw x' raw' tx traw h w
    s0 s1 s2 m0 m1 m2 :
  denorm_loop stds means [0; 1; 2]%nat x raw = inr (x', raw') ->
  take x' [2; 1; 0]%nat = inr tx ->
  take raw' [2; 1; 0]%nat = inr traw ->
  firstn 3 stds = [s0; s1; s2] ->
  firstn 3 means = [m0; m1; m2] ->
  (forall p0 p1 p2,
     pixel x 0 h w = Some p0 -> pixel x 1 h w = Some p1 ->
     pixel x 2 h w = Some p2 ->
     channels_at (transpose_1_2_0 tx) h w
       = Some [denorm s2 m2 p2; denorm s1 m1 p1; denorm s0 m0 p0]) /\
  (forall p0 p1 p2,
     pixel raw 0 h w = Some p0 -> pixel raw 1 h w = Some p1 ->
     pixel raw 2 h w = Some p2 ->
     channels_at (transpose_1_2_0 traw) h w
       = Some [denorm s2 m2 p2; denorm s1 m1 p1; denorm s0 m0 p0]).
Proof.
  intros Hloop Htx Htraw Hs Hm.
  destruct stds as [| t0 [| t1 [| t2 stds]]]; try discriminate Hs.
  destruct means as [| n0 [| n1 [| n2 means]]]; try discriminate Hm.
  inversion Hs; inversion Hm; subst.
  destruct x as [| a0 [| a1 [| a2 x]]]; try discriminate Hloop;
    try (destruct raw as [| r0 [| r1 [| r2 raw]]]; discriminate Hloop).
  destruct raw as [| r0 [| r1 [| r2 raw]]]; try discriminate Hloop.
  simpl in Hloop. inversion Hloop; subst x' raw'.
  simpl in Htx, Htraw. inversion Htx; inversion Htraw; subst tx traw.
  split; intros p0 p1 p2 H0 H1 H2; apply transpose_channels_at.
  all: unfold pixel in *; simpl in *; rewrite nth_error_map.
  all: try (destruct (nth_error a2 h) as [row |]; simpl; [| discriminate];
            rewrite nth_error_map, H2; reflexivity).
  all: try (destruct (nth_error a1 h) as [row |]; simpl; [| discriminate];
            rewrite nth_error_map, H1; reflexivity).
  all: try (destruct (nth_error a0 h) as [row |]; simpl; [| discriminate];
            rewrite nth_error_map, H0; reflexivity).
  all: try (destruct (nth_error r2 h) as [row |]; simpl; [| discriminate];
            rewrite nth_error_map, H2; reflexivity).
  all: try (destruct (nth_error r1 h) as [row |]; simpl; [| discriminate];
            rewrite nth_error_map, H1; reflexivity).
  all: try (destruct (nth_error r0 h) as [row |]; simpl; [| discriminate];
            rewrite nth_error_map, H0; reflexivity).
Qed.

Section Rendering.

Variable model : image -> batch -> result.
Variable args : arguments.

(** X11.  The two images a processed batch renders hold, at row [h] and column
    [w], the denormalized values of channels 2, 1 and 0, in this order, of
    the image of the batch (first file) and of the attacked image (second
    file). *)
Theorem rendered_images_of_a_batch data s s' h w s0 s1 s2 m0 m1 m2 :
  attack_batch model args data s = (Ok tt, s') ->
  firstn 3 (std data) = [s0; s1; s2] ->
  firstn 3 (mean data) = [m0; m1; m2] ->
  exists original attacked,
    rendered s' =
      rendered s ++
        [((save_path args ++ basename (filename data))%string, original);
         ((save_path args ++ "attack_" ++ basename (filename data))%string,
          attacked)] /\
    (forall p0 p1 p2,
       pixel (img data) 0 h w = Some p0 -> pixel (img data) 1 h w = Some p1 ->
       pixel (img data) 2 h w = Some p2 ->
       channels_at original h w
         = Some [denorm s2 m2 p2; denorm s1 m1 p1; denorm s0 m0 p0]) /\
    (forall p0 p1 p2,
       pixel (imgs s') 0 h w = Some p0 -> pixel (imgs s') 1 h w = Some p1 ->
       pixel (imgs s') 2 h w = Some p2 ->
       channels_at attacked h w
         = Some [denorm s2 m2 p2; denorm s1 m1 p1; denorm s0 m0 p0]).
Proof.
  intros H Hs Hm. unfold attack_batch, visualize_img in H. run_inv.
  match goal with
  | E1 : denorm_loop _ _ _ ?x _ = inr ?r,
    E2 : take (fst ?r) _ = inr ?tx,
    E3 : take (snd ?r) _ = inr ?traw |- _ =>
      destruct r as [x' raw']; simpl in E2, E3;
      destruct (@display_channels _ _ _ _ _ _ _ _ h w _ _ _ _ _ _
                  E1 E2 E3 Hs Hm) as [Hx Hraw];
      exists (transpose_1_2_0 traw), (transpose_1_2_0 tx)
  end.
  split; [| split].
  - simpl.
    pose proof (@attack_iters_frame model args _ rendered
                  (Z.to_nat (num_attack_iter args)) data
                  (fun _ _ => eq_refl) (fun _ _ => eq_refl) (fun _ _ => eq_refl)
                  (start_batch data s)) as Hr.
    match goal with
    | Hit : attack_iters _ _ _ _ _ = (Ok _, _) |- _ => rewrite Hit in Hr
    end.
    simpl in Hr. rewrite Hr, <- app_assoc. reflexivity.
  - exact Hraw.
  - exact Hx.
Qed.

End Rendering.

(** ** Properties of [parse_losses] *)

Lemma collect_type_error pre name post acc :
  Forall (fun kv => is_other (snd kv) = false) pre ->
  collect (pre ++ (name, LOther) :: post) acc = inl (NotATensor name).
Proof.
  revert acc. induction pre as [| [k v] pre IH]; simpl; intros acc H.
  - reflexivity.
  - inversion H as [| ? ? Hv Hpre]; subst. simpl in Hv.
    destruct v; [apply IH, Hpre | apply IH, Hpre | discriminate Hv].
Qed.

(** X12.  The first value, in dict order, that is neither a tensor nor a list
    makes [parse_losses] raise the TypeError that names its key. *)
Theorem parse_losses_type_error pre name post :
  Forall (fun kv => is_other (snd kv) = false) pre ->
  parse_losses (pre ++ (name, LOther) :: post) = inl (NotATensor name).
Proof.
  intros H. unfold parse_losses. rewrite collect_type_error by exact H.
  reflexivity.
Qed.

Lemma dict_set_keys (V : Type) (d : list (string * V)) key v k :
  In k (map fst (dict_set d key v)) -> k = key \/ In k (map fst d).
Proof.
  induction d as [| [k0 v0] d IH]; simpl.
  - intros [H | []]. left. symmetry. exact H.
  - destruct (String.eqb k0 key) eqn:E; simpl.
    + intros [H | H]; [left; symmetry; exact H | right; right; exact H].
    + intros [H | H]; [right; left; exact H |].
      destruct (IH H) as [H' | H']; [left; exact H' | right; right; exact H'].
Qed.

Lemma dict_set_In (V : Type) (d : list (string * V)) key v :
  In (key, v) (dict_set d key v).
Proof.
  induction d as [| [k0 v0] d IH]; simpl.
  - left. reflexivity.
  - destruct (String.eqb k0 key); [left; reflexivity | right; exact IH].
Qed.

Lemma dict_set_other (V : Type) (d : list (string * V)) key v k w :
  k <> key -> In (k, w) d -> In (k, w) (dict_set d key v).
Proof.
  intros Hne. induction d as [| [k0 v0] d IH]; simpl; [intros [] |].
  destruct (String.eqb k0 key) eqn:E.
  - apply String.eqb_eq in E.
    intros [H | H]; [inversion H; exfalso; apply Hne; congruence |].
    right. exact H.
  - intros [H | H]; [left; exact H | right; apply IH, H].
Qed.

Lemma dict_set_fresh (V : Type) (d : list (string * V)) key v :
  ~ In key (map fst d) -> dict_set d key v = d ++ [(key, v)].
Proof.
  induction d as [| [k0 v0] d IH]; simpl; intros H; [reflexivity |].
  destruct (String.eqb k0 key) eqn:E.
  - apply String.eqb_eq in E. exfalso. apply H. left. exact E.
  - f_equal. apply IH. intros Hin. apply H. right. exact Hin.
Qed.

Lemma items_int (d : list (string * number)) k z :
  In (k, PyInt z) d -> items d = inl NoItem.
Proof.
  induction d as [| [k0 [z0 | v0]] d IH]; simpl; intros H.
  - contradiction.
  - reflexivity.
  - destruct H as [H | H]; [discriminate H |]. rewrite (IH H). reflexivity.
Qed.

Lemma collect_keys losses acc out k :
  collect losses acc = inr out ->
  In k (map fst out) -> In k (map fst losses) \/ In k (map fst acc).
Proof.
  revert acc. induction losses as [| [name v] losses IH]; simpl; intros acc H Hin.
  - inversion H; subst. right. exact Hin.
  - destruct v as [t | ts |]; try discriminate H;
      destruct (IH _ H Hin) as [H' | H']; try (left; right; exact H');
      apply dict_set_keys in H'; destruct H' as [-> | H'];
      [left; left; reflexivity | right; exact H'
      | left; left; reflexivity | right; exact H'].
Qed.

Lemma collect_total losses acc :
  Forall (fun kv => is_other (snd kv) = false) losses ->
  exists out, collect losses acc = inr out.
Proof.
  revert acc. induction losses as [| [name v] losses IH]; simpl; intros acc H.
  - exists acc. reflexivity.
  - inversion H as [| ? ? Hv Hrest]; subst. simpl in Hv.
    destruct v; [apply IH, Hrest | apply IH, Hrest | discriminate Hv].
Qed.

(** X13.  When every value is a tensor or a list and no key contains ["loss"]
    (an empty dict too), the total is the int [0] that [sum] starts from
    and [.item()] raises on it. *)
Theorem parse_losses_without_loss_key losses :
  Forall (fun kv => is_other (snd kv) = false) losses ->
  Forall (fun kv => contains "loss" (fst kv) = false) losses ->
  parse_losses losses = inl NoItem.
Proof.
  intros Hv Hk. unfold parse_losses.
  destruct (collect_total [] Hv) as [out Hout]. rewrite Hout.
  assert (Hnone : filter (fun kv => contains "loss" (fst kv)) out = []).
  { destruct (filter (fun kv => contains "loss" (fst kv)) out)
      as [| [k v] l] eqn:Hf; [reflexivity |]. exfalso.
    assert (Hin : In (k, v) (filter (fun kv => contains "loss" (fst kv)) out))
      by (rewrite Hf; left; reflexivity).
    apply filter_In in Hin. destruct Hin as [Hin Hc]. simpl in Hc.
    assert (Hkey : In k (map fst out))
      by (change k with (fst (k, v)); apply in_map; exact Hin).
    destruct (collect_keys _ _ k Hout Hkey) as [H | []].
    apply in_map_iff in H. destruct H as ([k' v'] & Heq & Hin').
    simpl in Heq. subst k'. rewrite Forall_forall in Hk.
    specialize (Hk _ Hin'). simpl in Hk. congruence. }
  cbv zeta. rewrite Hnone. simpl map. unfold py_sum. simpl fold_left.
  rewrite (@items_int _ "loss" 0%Z); [reflexivity | apply dict_set_In].
Qed.

Lemma collect_fresh losses acc :
  NoDup (map fst acc ++ map fst losses) ->
  Forall (fun kv => is_other (snd kv) = false) losses ->
  collect losses acc =
    inr (acc ++
         map (fun kv =>
                (fst kv,
                 match snd kv with
                 | LTensor t => Scalar (tensor_mean t)
                 | LList ts => py_sum (map (fun t => Scalar (tensor_mean t)) ts)
                 | LOther => PyInt 0
                 end)) losses).
Proof.
  revert acc. induction losses as [| [name v] losses IH]; simpl; intros acc Hnd Hv.
  - rewrite app_nil_r. reflexivity.
  - inversion Hv as [| ? ? Hv0 Hrest]; subst. simpl in Hv0.
    assert (Hfresh : ~ In name (map fst acc)).
    { intros Hin. apply NoDup_remove_2 in Hnd. apply Hnd.
      apply in_or_app. left. exact Hin. }
    assert (Hnd' : forall w : number,
               NoDup (map fst (acc ++ [(name, w)]) ++ map fst losses)).
    { intros w. rewrite map_app. simpl. rewrite <- app_assoc. exact Hnd. }
    destruct v as [t | ts |]; [| | discriminate Hv0];
      rewrite dict_set_fresh by exact Hfresh;
      rewrite IH by (first [apply Hnd' | exact Hrest]);
      rewrite <- app_assoc; reflexivity.
Qed.

Lemma fold_py_add_scalars vs a :
  fold_left py_add (map Scalar vs) (Scalar a) = Scalar (fold_left Num.add vs a).
Proof.
  revert a. induction vs as [| w vs IH]; intros a; [reflexivity |].
  exact (IH (Num.add a w)).
Qed.

Lemma py_sum_scalars v vs :
  py_sum (map Scalar (v :: vs)) = Scalar (fold_left Num.add (v :: vs) Num.zero).
Proof.
  exact (fold_py_add_scalars vs (Num.add Num.zero v)).
Qed.

(** X14.  With distinct keys and no value other than tensors and lists, an empty
    list under a key other than ["loss"] is logged as the int [0], on which
    [.item()] raises. *)
Theorem parse_losses_empty_list losses name :
  NoDup (map fst losses) ->
  Forall (fun kv => is_other (snd kv) = false) losses ->
  In (name, LList []) losses ->
  name <> "loss"%string ->
  parse_losses losses = inl NoItem.
Proof.
  intros Hnd Hv Hin Hne. unfold parse_losses.
  rewrite collect_fresh by assumption. cbv zeta. simpl app.
  rewrite (@items_int _ name 0%Z); [reflexivity |].
  apply dict_set_other; [exact Hne |].
  apply in_map_iff. exists (name, LList []). split; [reflexivity | exact Hin].
Qed.

Lemma items_scalars (l : list (string * Num.t)) :
  items (map (fun kv => (fst kv, Scalar (snd kv))) l) = inr l.
Proof.
  induction l as [| [k v] l IH]; simpl; [reflexivity |].
  rewrite IH. reflexivity.
Qed.

(** X15.  With distinct keys, none of them ["loss"] and one at least containing
    ["loss"], and values that are tensors or non-empty lists of tensors,
    [parse_losses] returns the sum of the logged values whose key contains
    ["loss"], and logs every value under its key, in order, followed by
    this sum under ["loss"]: a key such as ["acc"] is logged and left out
    of the sum. *)
Theorem parse_losses_Ok losses :
  NoDup (map fst losses) ->
  ~ In "loss"%string (map fst losses) ->
  Forall (fun kv => has_mean (snd kv) = true) losses ->
  existsb (fun kv => contains "loss" (fst kv)) losses = true ->
  let total :=
    fold_left Num.add
      (map (fun kv => logged (snd kv))
         (filter (fun kv => contains "loss" (fst kv)) losses))
      Num.zero in
  parse_losses losses =
    inr (Scalar total,
         map (fun kv => (fst kv, logged (snd kv))) losses ++ [("loss"%string, total)]).
Proof.
  intros Hnd Hloss Hv Hsome total. unfold parse_losses.
  assert (Hother : Forall (fun kv => is_other (snd kv) = false) losses).
  { eapply Forall_impl; [| exact Hv]. intros [k [t | [| t ts] |]]; simpl;
      intros H; try discriminate H; reflexivity. }
  rewrite collect_fresh by assumption. cbv zeta. simpl app.
  assert (Hlog :
    map (fun kv : string * loss_value =>
           (fst kv,
            match snd kv with
            | LTensor t => Scalar (tensor_mean t)
            | LList ts => py_sum (map (fun t => Scalar (tensor_mean t)) ts)
            | LOther => PyInt 0
            end)) losses
    = map (fun kv => (fst kv, Scalar (snd kv)))
        (map (fun kv => (fst kv, logged (snd kv))) losses)).
  { rewrite map_map. apply map_ext_in. intros [k v] Hin. simpl.
    rewrite Forall_forall in Hv. specialize (Hv _ Hin). simpl in Hv.
    destruct v as [t | [| t ts] |]; try discriminate Hv; [reflexivity |].
    f_equal. rewrite <- (map_map tensor_mean Scalar). apply py_sum_scalars. }
  rewrite Hlog.
  set (logs := map (fun kv => (fst kv, logged (snd kv))) losses).
  assert (Hsum :
    py_sum
      (map snd
         (filter (fun kv => contains "loss" (fst kv))
            (map (fun kv : string * Num.t => (fst kv, Scalar (snd kv))) logs)))
    = Scalar total).
  { unfold logs, total. clear Hlog Hnd Hloss Hv Hother logs total.
    assert (Hmap : forall l : list (string * loss_value),
      map snd
        (filter (fun kv => contains "loss" (fst kv))
           (map (fun kv : string * Num.t => (fst kv, Scalar (snd kv)))
              (map (fun kv => (fst kv, logged (snd kv))) l)))
      = map Scalar
          (map (fun kv => logged (snd kv))
             (filter (fun kv => contains "loss" (fst kv)) l))).
    { induction l as [| [k v] l IH]; simpl; [reflexivity |].
      destruct (contains "loss" k); simpl; rewrite IH; reflexivity. }
    rewrite Hmap.
    destruct (filter (fun kv => contains "loss" (fst kv)) losses)
      as [| kv l] eqn:Hf.
    - exfalso. apply existsb_exists in Hsome.
      destruct Hsome as (kv & Hin & Hc).
      assert (H : In kv (filter (fun kv => contains "loss" (fst kv)) losses))
        by (apply filter_In; split; assumption).
      rewrite Hf in H. exact H.
    - simpl map. apply py_sum_scalars. }
  rewrite Hsum.
  rewrite dict_set_fresh.
  - change [("loss"%string, Scalar total)]
      with (map (fun kv : string * Num.t => (fst kv, Scalar (snd kv)))
              [("loss"%string, total)]).
    rewrite <- map_app, items_scalars. reflexivity.
  - rewrite map_map. simpl. unfold logs. rewrite map_map. simpl. exact Hloss.
Qed.

(** ** Properties of [build_optimizer] *)

Lemma prefix_append p s :
  String.prefix p s = true <-> exists r, s = (p ++ r)%string.
Proof.
  revert s. induction p as [| a p IH]; intros s.
  - split; [intros _; exists s; reflexivity | intros _; destruct s; reflexivity].
  - destruct s as [| b s]; simpl.
    + split; [discriminate | intros [r H]; discriminate H].
    + destruct (ascii_dec a b) as [-> | Hne].
      * rewrite IH. split; intros [r H]; exists r; [rewrite H | inversion H];
          reflexivity.
      * split; [discriminate |]. intros [r H]. inversion H. congruence.
Qed.

Lemma weight_or_bias_spec s :
  weight_or_bias s = true <->
  exists word post,
    s = (word ++ post)%string /\ (word = "weight" \/ word = "bias")%string.
Proof.
  unfold weight_or_bias. rewrite orb_true_iff, !prefix_append. split.
  - intros [[r H] | [r H]].
    + exists "weight"%string, r. split; [exact H | left; reflexivity].
    + exists "bias"%string, r. split; [exact H | right; reflexivity].
  - intros (word & post & H & [-> | ->]); [left | right]; exists post; exact H.
Qed.

Lemma after_norm_spec s :
  after_norm s = true <->
  exists digits c word post,
    s = (digits ++ String c (word ++ post))%string /\
    forallb is_digit (list_ascii_of_string digits) = true /\
    c <> newline /\
    (word = "weight" \/ word = "bias")%string.
Proof.
  split.
  - induction s as [| c r IH]; simpl; [discriminate |].
    intros H. apply orb_true_iff in H. destruct H as [H | H].
    + apply andb_true_iff in H. destruct H as [Hc Hw].
      apply weight_or_bias_spec in Hw. destruct Hw as (word & post & -> & Hword).
      exists EmptyString, c, word, post. repeat split; try assumption.
      intros ->. rewrite Ascii.eqb_refl in Hc. discriminate Hc.
    + apply andb_true_iff in H. destruct H as [Hd Hr].
      destruct (IH Hr) as (digits & c' & word & post & -> & Hds & Hc' & Hword).
      exists (String c digits), c', word, post. repeat split; try assumption.
      simpl. rewrite Hd. exact Hds.
  - intros (digits & c & word & post & -> & Hds & Hc & Hword).
    induction digits as [| d ds IH]; simpl.
    + apply orb_true_iff. left. apply andb_true_iff. split.
      * apply negb_true_iff, Ascii.eqb_neq. exact Hc.
      * apply weight_or_bias_spec. exists word, post. split; [reflexivity | exact Hword].
    + simpl in Hds. apply andb_true_iff in Hds. destruct Hds as [Hd Hds].
      apply orb_true_iff. right. rewrite Hd. simpl. apply IH. exact Hds.
Qed.

(** X16.  A name of ASCII characters is taken for that of a normalization
    layer exactly when it has, anywhere, [bn] or [gn], then digits
    (possibly none), then one character, whatever it is but a newline,
    then [weight] or [bias]. *)
Theorem norm_layer_spec name :
  ascii_name name = true ->
  norm_layer name = true <->
  exists pre tag digits c word post,
    name = (pre ++ tag ++ digits ++ String c (word ++ post))%string /\
    (tag = "bn" \/ tag = "gn")%string /\
    forallb is_digit (list_ascii_of_string digits) = true /\
    c <> newline /\
    (word = "weight" \/ word = "bias")%string.
Proof.
  intros _.
  assert (Hhere : forall s,
    norm_here s = true <->
    exists tag digits c word post,
      s = (tag ++ digits ++ String c (word ++ post))%string /\
      (tag = "bn" \/ tag = "gn")%string /\
      forallb is_digit (list_ascii_of_string digits) = true /\
      c <> newline /\
      (word = "weight" \/ word = "bias")%string).
  { intros s. split.
    - destruct s as [| c1 [| c2 r]]; simpl; try discriminate.
      intros H. apply andb_true_iff in H. destruct H as [H Hr].
      apply andb_true_iff in H. destruct H as [H1 H2].
      apply Ascii.eqb_eq in H2. subst c2.
      apply after_norm_spec in Hr.
      destruct Hr as (digits & c & word & post & -> & Hrest).
      apply orb_true_iff in H1.
      destruct H1 as [H1 | H1]; apply Ascii.eqb_eq in H1; subst c1.
      + exists "bn"%string, digits, c, word, post.
        split; [reflexivity |]. split; [left; reflexivity | exact Hrest].
      + exists "gn"%string, digits, c, word, post.
        split; [reflexivity |]. split; [right; reflexivity | exact Hrest].
    - intros (tag & digits & c & word & post & -> & Htag & Hrest).
      assert (Hr : after_norm (digits ++ String c (word ++ post)) = true).
      { apply after_norm_spec. exists digits, c, word, post.
        split; [reflexivity | exact Hrest]. }
      destruct Htag as [-> | ->]; simpl; exact Hr. }
  split.
  - induction name as [| a name IH].
    + simpl. intros H. discriminate H.
    + change (norm_layer (String a name))
        with (norm_here (String a name) || norm_layer name).
      intros H. apply orb_true_iff in H.
      destruct H as [H | H].
      * apply Hhere in H.
        destruct H as (tag & digits & c & word & post & Heq & Hrest).
        exists EmptyString, tag, digits, c, word, post.
        split; [exact Heq | exact Hrest].
      * destruct (IH H) as (pre & tag & digits & c & word & post & -> & Hrest).
        exists (String a pre), tag, digits, c, word, post.
        split; [reflexivity | exact Hrest].
  - intros (pre & tag & digits & c & word & post & -> & Hrest).
    induction pre as [| a pre IH].
    + simpl append.
      assert (H : norm_here (tag ++ digits ++ String c (word ++ post)) = true).
      { apply Hhere. exists tag, digits, c, word, post.
        split; [reflexivity | exact Hrest]. }
      revert H. generalize (tag ++ digits ++ String c (word ++ post))%string.
      intros [| a s] H; [discriminate H |].
      change (norm_layer (String a s))
        with (norm_here (String a s) || norm_layer s).
      rewrite H. reflexivity.
    + change (norm_layer (String a pre ++ tag ++ digits ++ String c (word ++ post)))
        with (norm_here
                (String a pre ++ tag ++ digits ++ String c (word ++ post))
              || norm_layer (pre ++ tag ++ digits ++ String c (word ++ post))).
      rewrite IH. apply orb_true_r.
Qed.

(** X17.  A decay multiplier in [paramwise_options] without a [weight_decay] in
    the config fails the assertion of line 117, whatever the model. *)
Theorem decay_mult_needs_weight_decay named_parameters cfg options :
  paramwise_options cfg = Some options ->
  weight_decay cfg = None ->
  bias_decay_mult options <> None \/ norm_decay_mult options <> None ->
  build_optimizer named_parameters cfg = inl AssertionError.
Proof.
  intros Ho Hwd Hm. unfold build_optimizer. rewrite Ho, Hwd.
  destruct (bias_decay_mult options), (norm_decay_mult options);
    try reflexivity.
  destruct Hm as [H | H]; contradiction.
Qed.

Lemma build_optimizer_groups named_parameters cfg options opt :
  paramwise_options cfg = Some options ->
  build_optimizer named_parameters cfg = inr opt ->
  params_arg opt =
    Groups
      (map (fun np =>
              group_of (lr cfg) (weight_decay cfg) options (fst np) (snd np))
         named_parameters).
Proof.
  intros Ho H. unfold build_optimizer in H. rewrite Ho in H. cbv zeta in H.
  destruct (bias_decay_mult options), (norm_decay_mult options),
    (weight_decay cfg); inversion H; reflexivity.
Qed.

(** X18.  With [paramwise_options], the optimizer gets one group per named
    parameter, in order, each holding this parameter alone; a parameter
    that does not require a gradient keeps the global settings, whatever
    its name. *)
Theorem one_group_per_parameter named_parameters cfg options opt :
  paramwise_options cfg = Some options ->
  build_optimizer named_parameters cfg = inr opt ->
  exists gs,
    params_arg opt = Groups gs /\
    map params gs = map (fun np => [snd np]) named_parameters /\
    Forall2
      (fun np g =>
         requires_grad (snd np) = false ->
         group_lr g = None /\ group_weight_decay g = None)
      named_parameters gs.
Proof.
  intros Ho H. eexists. split; [| split].
  - exact (@build_optimizer_groups _ _ _ _ Ho H).
  - rewrite map_map. apply map_ext. intros [name p]. unfold group_of. simpl.
    destruct (requires_grad p); simpl; [| reflexivity].
    destruct (norm_layer name); [reflexivity |].
    destruct (endswith name ".bias"); reflexivity.
  - clear H. induction named_parameters as [| [name p] l IH]; simpl;
      constructor; [| exact IH].
    simpl. intros Hreq. unfold group_of. rewrite Hreq. simpl.
    split; reflexivity.
Qed.

(** X19.  The test for a normalization layer comes first: a trainable parameter
    whose name matches it never has its learning rate set, even when the
    name ends with [.bias], and its weight decay is the base one times
    [norm_decay_mult]. *)
Theorem norm_layers_keep_the_base_lr named_parameters cfg options opt :
  paramwise_options cfg = Some options ->
  build_optimizer named_parameters cfg = inr opt ->
  exists gs,
    params_arg opt = Groups gs /\
    Forall2
      (fun np g =>
         requires_grad (snd np) = true ->
         norm_layer (fst np) = true ->
         group_lr g = None /\
         group_weight_decay g =
           option_map
             (fun wd => Num.mul wd (get_mult (norm_decay_mult options)))
             (weight_decay cfg))
      named_parameters gs.
Proof.
  intros Ho H. eexists. split.
  - exact (@build_optimizer_groups _ _ _ _ Ho H).
  - clear H. induction named_parameters as [| [name p] l IH]; simpl;
      constructor; [| exact IH].
    simpl. intros Hreq Hnorm. unfold group_of. rewrite Hreq, Hnorm. simpl.
    split; [reflexivity |]. destruct (weight_decay cfg); reflexivity.
Qed.

(** X20.  Without a [weight_decay] in the config no group gets one: the only
    setting that [paramwise_options] can then change is the learning rate
    of the biases. *)
Theorem no_weight_decay_in_any_group named_parameters cfg options opt :
  paramwise_options cfg = Some options ->
  weight_decay cfg = None ->
  build_optimizer named_parameters cfg = inr opt ->
  exists gs,
    params_arg opt = Groups gs /\
    Forall (fun g => group_weight_decay g = None) gs /\
    Forall2
      (fun np g =>
         group_lr g <> None ->
         requires_grad (snd np) = true /\ norm_layer (fst np) = false /\
         endswith (fst np) ".bias" = true)
      named_parameters gs.
Proof.
  intros Ho Hwd H. eexists. split; [| split].
  - exact (@build_optimizer_groups _ _ _ _ Ho H).
  - rewrite Hwd. apply Forall_map. apply Forall_forall. intros [name p] _.
    unfold group_of. simpl.
    destruct (requires_grad p); simpl; [| reflexivity].
    destruct (norm_layer name); [reflexivity |].
    destruct (endswith name ".bias"); reflexivity.
  - clear H. induction named_parameters as [| [name p] l IH]; simpl;
      constructor; [| exact IH].
    simpl. unfold group_of. rewrite Hwd.
    destruct (requires_grad p); simpl; [| intros Hc; contradiction].
    destruct (norm_layer name); simpl; [intros Hc; contradiction |].
    destruct (endswith name ".bias"); simpl; [| intros Hc; contradiction].
    intros _. repeat split.
Qed.

(** ** Properties of the training functions *)

Section TrainingProperties.

Variable Dataset : Type.

Lemma loaders_only (f : Dataset -> call Dataset) (p : call Dataset -> bool) l :
  (forall ds, p (f ds) = false) -> filter p (map f l) = [].
Proof.
  intros H. induction l as [| ds l IH]; simpl; [reflexivity |].
  rewrite H. exact IH.
Qed.

Lemma restore_calls (cfg : train_config) :
  (restore Dataset cfg = [] /\ is_set (resume_from cfg) = false /\
   is_set (load_from cfg) = false) \/
  (exists r, restore Dataset cfg = [Resume Dataset r] /\
             resume_from cfg = Some r /\ is_set (resume_from cfg) = true) \/
  (exists l, restore Dataset cfg = [LoadCheckpoint Dataset l] /\
             load_from cfg = Some l /\ is_set (resume_from cfg) = false).
Proof.
  unfold restore.
  destruct (resume_from cfg) as [[| c r] |].
  - destruct (load_from cfg) as [[| c l] |].
    + left. repeat split.
    + right. right. eexists. repeat split.
    + left. repeat split.
  - right. left. eexists. repeat split.
  - destruct (load_from cfg) as [[| c l] |].
    + left. repeat split.
    + right. right. eexists. repeat split.
    + left. repeat split.
Qed.

(** X21.  Without [distributed], [validate] changes nothing: no evaluation hook
    is ever registered. *)
Theorem non_distributed_training_never_evaluates model dataset cfg validate :
  train_detector model dataset cfg false validate
    = train_detector (Dataset := Dataset) model dataset cfg false false /\
  filter (@is_eval_hook Dataset)
    (fst (train_detector model dataset cfg false validate)) = [].
Proof.
  split; [reflexivity |].
  assert (Hr : filter (@is_eval_hook Dataset) (restore Dataset cfg) = []).
  { destruct (restore_calls cfg) as [(-> & _) | [(r & -> & _) | (l & -> & _)]];
      reflexivity. }
  unfold train_detector, _non_dist_train.
  destruct (build_optimizer _ _) as [e | opt]; cbn [fst].
  - apply loaders_only. reflexivity.
  - rewrite !filter_app, loaders_only, Hr by reflexivity. reflexivity.
Qed.

(** X22.  A distributed training registers one evaluation hook when [validate]
    is set and none otherwise: the recall hook for an RPN, whatever the
    validation set, else the COCO mAP hook for a COCO validation set, else
    the plain mAP hook. *)
Theorem distributed_evaluation_hook model dataset cfg validate opt :
  build_optimizer (named_parameters model) (optimizer_cfg cfg) = inr opt ->
  filter (@is_eval_hook Dataset)
    (fst (train_detector model dataset cfg true validate))
  = if validate then
      [RegisterHook Dataset
         (if is_rpn model then CocoDistEvalRecallHook
          else if val_is_coco cfg then CocoDistEvalmAPHook
          else DistEvalmAPHook)]
    else [].
Proof.
  intros Hopt.
  assert (Hr : filter (@is_eval_hook Dataset) (restore Dataset cfg) = []).
  { destruct (restore_calls cfg) as [(-> & _) | [(r & -> & _) | (l & -> & _)]];
      reflexivity. }
  unfold train_detector, _dist_train. rewrite Hopt. cbn [fst].
  rewrite !filter_app, loaders_only, Hr by reflexivity. unfold eval_hook.
  destruct validate; [| reflexivity].
  destruct (is_rpn model); [reflexivity |].
  destruct (val_is_coco cfg); reflexivity.
Qed.

(** X23.  Resuming comes first: a training makes at most one of the calls
    [resume] and [load_checkpoint], and loads a checkpoint only when
    [resume_from] is not set. *)
Theorem resume_before_load model dataset cfg distributed validate :
  (List.length
     (filter (@is_restore Dataset)
        (fst (train_detector model dataset cfg distributed validate)))
   <= 1)%nat /\
  (forall l,
     In (LoadCheckpoint Dataset l)
       (fst (train_detector model dataset cfg distributed validate)) ->
     is_set (resume_from cfg) = false /\ load_from cfg = Some l).
Proof.
  assert (Hin : forall l : string,
            In (LoadCheckpoint Dataset l) (restore Dataset cfg) ->
            is_set (resume_from cfg) = false /\ load_from cfg = Some l).
  { intros l H.
    destruct (restore_calls cfg)
      as [(Hr & _) | [(r & Hr & _) | (l' & Hr & Hl & Hs)]];
      rewrite Hr in H; simpl in H; try contradiction;
      destruct H as [H | []]; try discriminate H.
    inversion H; subst. split; assumption. }
  assert (Hlen : (List.length (filter (@is_restore Dataset)
                                 (restore Dataset cfg)) <= 1)%nat).
  { destruct (restore_calls cfg) as [(-> & _) | [(r & -> & _) | (l & -> & _)]];
      simpl; lia. }
  assert (Hloaders : forall (f : Dataset -> call Dataset) l ds,
            (forall d, is_restore (f d) = false) ->
            ~ In (LoadCheckpoint Dataset l) (map f ds)).
  { intros f l ds Hf H. apply in_map_iff in H. destruct H as (d & Hd & _).
    specialize (Hf d). rewrite Hd in Hf. discriminate Hf. }
  cbv zeta. unfold train_detector, _dist_train, _non_dist_train.
  destruct distributed;
    destruct (build_optimizer _ _) as [e | opt]; cbn [fst]; split.
  - rewrite loaders_only by reflexivity. simpl. lia.
  - intros l H. exfalso. revert H. apply Hloaders. reflexivity.
  - rewrite !filter_app, loaders_only by reflexivity.
    destruct validate; simpl; rewrite length_app; simpl; lia.
  - intros l H.
    repeat (apply in_app_or in H; destruct H as [H | H]).
    + exfalso. revert H. apply Hloaders. reflexivity.
    + simpl in H. repeat (destruct H as [H | H]; try discriminate H).
      contradiction.
    + destruct validate; simpl in H;
        repeat (destruct H as [H | H]; try discriminate H); contradiction.
    + apply Hin. exact H.
    + simpl in H. destruct H as [H | []]. discriminate H.
  - rewrite loaders_only by reflexivity. simpl. lia.
  - intros l H. exfalso. revert H. apply Hloaders. reflexivity.
  - rewrite !filter_app, loaders_only by reflexivity.
    simpl. rewrite length_app. simpl. lia.
  - intros l H.
    repeat (apply in_app_or in H; destruct H as [H | H]).
    + exfalso. revert H. apply Hloaders. reflexivity.
    + simpl in H. repeat (destruct H as [H | H]; try discriminate H).
      contradiction.
    + apply Hin. exact H.
    + simpl in H. destruct H as [H | []]. discriminate H.
Qed.

(** X24.  When [build_optimizer] fails the loaders have been built and nothing
    else is done: no runner is made and nothing runs.  When it succeeds the
    last call is [run], on one loader per data set. *)
Theorem training_runs_last model dataset cfg distributed validate :
  match build_optimizer (named_parameters model) (optimizer_cfg cfg) with
  | inl e =>
      snd (train_detector model dataset cfg distributed validate) = Some e /\
      filter (@uses_runner Dataset)
        (fst (train_detector model dataset cfg distributed validate)) = []
  | inr _ =>
      snd (train_detector model dataset cfg distributed validate) = None /\
      exists before,
        fst (train_detector model dataset cfg distributed validate)
          = before ++ [RunnerRun Dataset (List.length (as_list dataset))]
  end.
Proof.
  cbv zeta. unfold train_detector, _dist_train, _non_dist_train.
  destruct distributed;
    destruct (build_optimizer _ _) as [e | opt]; cbn [fst snd].
  - split; [reflexivity | apply loaders_only; reflexivity].
  - split; [reflexivity |]. rewrite length_map. eexists.
    rewrite !app_assoc. reflexivity.
  - split; [reflexivity | apply loaders_only; reflexivity].
  - split; [reflexivity |]. rewrite length_map. eexists.
    rewrite !app_assoc. reflexivity.
Qed.

End TrainingProperties.

(** ** Further runs on the sample inputs *)

Module Runs2.

Import Sample Sample2.

Lemma no_iteration_is_an_index_error_witness :
  evaluate detector args_no_iter [data0] state0
    = (Raise IndexError, start_batch data0 (start_loop state0)).
Proof.
  apply (@no_iteration_is_an_index_error detector args_no_iter data0 []
           state0); simpl; lia.
Defined.

Lemma nothing_to_process_divides_by_zero_witness :
  evaluate detector args0 [] state0 = (Raise ZeroDivisionError, start_loop state0).
Proof.
  apply (@nothing_to_process_divides_by_zero detector args0 [] state0).
  left. split; [reflexivity | simpl; lia].
Defined.

Lemma negative_cap_reports_zero_witness :
  exists s' v,
    evaluate detector args_negative_cap [data0] state0 = (Ok tt, s') /\
    Num.equiv v Num.zero /\
    rendered s' = rendered state0 /\
    pbar_outer s' = 0%nat /\
    stdout s' =
      (stdout state0 ++
         [("Accuracy before attack"%string, v);
          ("Accuracy under attack"%string, v);
          ("Accuracy decrease"%string, Num.sub v v)])%list.
Proof.
  apply (@negative_cap_reports_zero detector args_negative_cap [data0] state0).
  simpl. lia.
Defined.

Lemma no_gradient_is_a_type_error_witness :
  attack_step blind_detector args0 data0 batch_start
    = (Raise TypeError,
       set_acc_list (acc_list batch_start ++ [Tensor acc0]) batch_start).
Proof.
  apply (@no_gradient_is_a_type_error blind_detector args0 data0 batch_start);
    reflexivity.
Defined.

Lemma rendered_files_of_a_run_witness :
  map fst (rendered (snd (evaluate detector args0 [data0] state0))) =
    (map fst (rendered state0)
       ++ flat_map (rendered_paths args0)
            (firstn (Z.to_nat (max_batch_of args0 [data0])) [data0]))%list.
Proof.
  apply (@rendered_files_of_a_run detector args0 [data0] state0).
  vm_compute. reflexivity.
Defined.

Lemma three_channels_are_required_witness :
  fst (attack_batch detector args0 gray state0) <> Ok tt /\
  rendered (snd (attack_batch detector args0 gray state0)) = rendered state0.
Proof.
  apply (@three_channels_are_required detector args0 gray state0).
  left. simpl. lia.
Defined.

Lemma zero_budget_keeps_the_image_witness :
  exists s',
    attack_iters detector args1 (Z.to_nat (num_attack_iter args1)) data0
      batch_start = (Ok tt, s') /\
    pointwise Num.equiv (imgs batch_start) (imgs s').
Proof.
  apply (@zero_budget_keeps_the_image detector args1 data0 batch_start 0).
  - reflexivity.
  - reflexivity.
  - simpl. lia.
  - reflexivity.
  - vm_compute. reflexivity.
Defined.

Lemma gradient_of_all_loss_terms_witness :
  image_gradient detector img0 data0
    = inr (fold_left backward (loss_terms (detector img0 data0)) None).
Proof.
  apply (@gradient_of_all_loss_terms detector img0 data0).
  repeat constructor; simpl; intros H;
    repeat (destruct H as [H | H]; try discriminate H); exact H.
Defined.

Lemma subdirectory_aborts_the_run_witness :
  attack_detector loader_of detector args0 [data0] state_with_dir
    = (Raise (IsADirectoryError "sub"),
       set_save_dir [("sub"%string, Dir); ("attack_old.jpg"%string, File)]
         (set_cfg (mkConfig 0 1 1) state_with_dir)).
Proof.
  apply (@subdirectory_aborts_the_run (list batch) loader_of detector args0
           [data0] state_with_dir [("old.jpg"%string, File)] "sub"
           [("attack_old.jpg"%string, File)]).
  - reflexivity.
  - reflexivity.
  - repeat constructor.
  - repeat constructor; simpl; intros H;
      repeat (destruct H as [H | H]; try discriminate H); exact H.
Defined.

Lemma rendered_images_of_a_batch_witness :
  exists original attacked,
    rendered (snd (attack_batch detector args0 data0 (start_loop state0))) =
      (rendered (start_loop state0) ++
         [((save_path args0 ++ basename (filename data0))%string, original);
          ((save_path args0 ++ "attack_" ++ basename (filename data0))%string,
           attacked)])%list /\
    (forall p0 p1 p2,
       pixel (img data0) 0 0 1 = Some p0 -> pixel (img data0) 1 0 1 = Some p1 ->
       pixel (img data0) 2 0 1 = Some p2 ->
       channels_at original 0 1
         = Some [denorm (fin 4) (fin 30) p2; denorm (fin 3) (fin 20) p1;
                 denorm (fin 2) (fin 10) p0]) /\
    (forall p0 p1 p2,
       pixel (imgs (snd (attack_batch detector args0 data0 (start_loop state0))))
         0 0 1 = Some p0 ->
       pixel (imgs (snd (attack_batch detector args0 data0 (start_loop state0))))
         1 0 1 = Some p1 ->
       pixel (imgs (snd (attack_batch detector args0 data0 (start_loop state0))))
         2 0 1 = Some p2 ->
       channels_at attacked 0 1
         = Some [denorm (fin 4) (fin 30) p2; denorm (fin 3) (fin 20) p1;
                 denorm (fin 2) (fin 10) p0]).
Proof.
  apply (@rendered_images_of_a_batch detector args0 data0 (start_loop state0)
           (snd (attack_batch detector args0 data0 (start_loop state0)))
           0 1 (fin 2) (fin 3) (fin 4) (fin 10) (fin 20) (fin 30)).
  - vm_compute. reflexivity.
  - reflexivity.
  - reflexivity.
Defined.

Lemma parse_losses_type_error_witness :
  parse_losses
    ([("loss_cls"%string, LTensor [fin 1; fin 3])]
       ++ ("acc"%string, LOther) :: [("loss_bbox"%string, LList [])])%list
  = inl (NotATensor "acc").
Proof.
  apply (@parse_losses_type_error [("loss_cls"%string, LTensor [fin 1; fin 3])]
           "acc" [("loss_bbox"%string, LList [])]).
  repeat constructor.
Defined.

Lemma parse_losses_without_loss_key_witness :
  parse_losses [("acc"%string, LTensor [fin 90])] = inl NoItem.
Proof.
  apply (@parse_losses_without_loss_key [("acc"%string, LTensor [fin 90])]);
    repeat constructor.
Defined.

Lemma parse_losses_empty_list_witness :
  parse_losses
    [("loss_cls"%string, LTensor [fin 1; fin 3]);
     ("loss_rpn_cls"%string, LList [])]
  = inl NoItem.
Proof.
  apply (@parse_losses_empty_list
           [("loss_cls"%string, LTensor [fin 1; fin 3]);
            ("loss_rpn_cls"%string, LList [])] "loss_rpn_cls").
  - repeat constructor; simpl; intros H;
      repeat (destruct H as [H | H]; try discriminate H); exact H.
  - repeat constructor.
  - right. left. reflexivity.
  - discriminate.
Defined.

Lemma parse_losses_Ok_witness :
  parse_losses losses0 =
    inr (Scalar
           (fold_left Num.add
              (map (fun kv => logged (snd kv))
                 (filter (fun kv => contains "loss" (fst kv)) losses0))
              Num.zero),
         (map (fun kv => (fst kv, logged (snd kv))) losses0
            ++ [("loss"%string,
                 fold_left Num.add
                   (map (fun kv => logged (snd kv))
                      (filter (fun kv => contains "loss" (fst kv)) losses0))
                   Num.zero)])%list).
Proof.
  apply (@parse_losses_Ok losses0).
  - repeat constructor; simpl; intros H;
      repeat (destruct H as [H | H]; try discriminate H); exact H.
  - simpl. intros H.
    repeat (destruct H as [H | H]; try discriminate H); exact H.
  - repeat constructor.
  - reflexivity.
Defined.

(** A name with no dot before [bias], and one with no [bn] or [gn]. *)
Lemma norm_layer_spec_witness :
  (norm_layer "layer1.0.bn2_bias" = true /\
   exists pre tag digits c word post,
     "layer1.0.bn2_bias"%string
       = (pre ++ tag ++ digits ++ String c (word ++ post))%string /\
     (tag = "bn" \/ tag = "gn")%string /\
     forallb is_digit (list_ascii_of_string digits) = true /\
     c <> newline /\
     (word = "weight" \/ word = "bias")%string) /\
  (norm_layer "bbox_head.fc.bias" = false /\
   ~ exists pre tag digits c word post,
       "bbox_head.fc.bias"%string
         = (pre ++ tag ++ digits ++ String c (word ++ post))%string /\
       (tag = "bn" \/ tag = "gn")%string /\
       forallb is_digit (list_ascii_of_string digits) = true /\
       c <> newline /\
       (word = "weight" \/ word = "bias")%string).
Proof.
  split.
  - split; [reflexivity |].
    apply (@norm_layer_spec "layer1.0.bn2_bias"); reflexivity.
  - split; [reflexivity |]. intros H.
    apply (@norm_layer_spec "bbox_head.fc.bias") in H; [| reflexivity].
    discriminate H.
Defined.

Lemma decay_mult_needs_weight_decay_witness :
  build_optimizer parameters0 (sgd None (Some options0)) = inl AssertionError.
Proof.
  apply (@decay_mult_needs_weight_decay parameters0 (sgd None (Some options0))
           options0).
  - reflexivity.
  - reflexivity.
  - left. discriminate.
Defined.

Lemma one_group_per_parameter_witness :
  exists gs,
    params_arg (built cfg_sgd) = Groups gs /\
    map params gs = map (fun np => [snd np]) parameters0 /\
    Forall2
      (fun np g =>
         requires_grad (snd np) = false ->
         group_lr g = None /\ group_weight_decay g = None)
      parameters0 gs.
Proof.
  apply (@one_group_per_parameter parameters0 cfg_sgd options0 (built cfg_sgd));
    reflexivity.
Defined.

Lemma norm_layers_keep_the_base_lr_witness :
  exists gs,
    params_arg (built cfg_sgd) = Groups gs /\
    Forall2
      (fun np g =>
         requires_grad (snd np) = true ->
         norm_layer (fst np) = true ->
         group_lr g = None /\
         group_weight_decay g =
           option_map
             (fun wd => Num.mul wd (get_mult (norm_decay_mult options0)))
             (weight_decay cfg_sgd))
      parameters0 gs.
Proof.
  apply (@norm_layers_keep_the_base_lr parameters0 cfg_sgd options0
           (built cfg_sgd)); reflexivity.
Defined.

Lemma no_weight_decay_in_any_group_witness :
  exists gs,
    params_arg (built cfg_no_decay) = Groups gs /\
    Forall (fun g => group_weight_decay g = None) gs /\
    Forall2
      (fun np g =>
         group_lr g <> None ->
         requires_grad (snd np) = true /\ norm_layer (fst np) = false /\
         endswith (fst np) ".bias" = true)
      parameters0 gs.
Proof.
  apply (@no_weight_decay_in_any_group parameters0 cfg_no_decay
           (mkParamwise (Some (fin 2)) None None) (built cfg_no_decay));
    reflexivity.
Defined.

Lemma distributed_evaluation_hook_witness :
  filter (@is_eval_hook nat)
    (fst (train_detector detector0 (inr [1; 2]%nat) train_cfg0 true true))
  = [RegisterHook nat CocoDistEvalmAPHook].
Proof.
  apply (@distributed_evaluation_hook nat detector0 (inr [1; 2]%nat) train_cfg0
           true (built cfg_sgd)).
  reflexivity.
Defined.

End Runs2.
